(** * Olio ray tracer: intersection and local shading

    A shallow embedding of the core of the renderer: rays and hit records
    (ray.cc), spheres (sphere.cc), triangles (triangle.cc), surface lists
    (surface_list.cc), the Phong material (phong_material.cc), point and
    ambient lights (light.cc) and the shading entry point
    [RayTracer::RayColor] (raytracer.cc).

    The C++ type [Real] is read as the field of real numbers: [+], [*], [/],
    [sqrt] and the comparisons are the exact ones, so rounding, NaN and
    infinities are outside this development.  Output parameters
    ([HitRecord &hit_record], [Vec3r &ray_color]) are returned next to the
    boolean result. *)

From Stdlib Require Import Reals Lra Psatz List String Bool Permutation.
From Stdlib Require Import ZArith Lia.
Import ListNotations.

Set Warnings "-register-all".

Open Scope R_scope.

(** ** Comparisons and the [<algorithm>] helpers *)

Definition Rlt_b (a b : R) : bool := if Rlt_dec a b then true else false.
Definition Req_b (a b : R) : bool := if Req_dec_T a b then true else false.

(** [std::min(a, b)] is [(b < a) ? b : a], [std::max(a, b)] is
    [(a < b) ? b : a]. *)
Definition std_min (a b : R) : R := if Rlt_dec b a then b else a.
Definition std_max (a b : R) : R := if Rlt_dec a b then b else a.

(** ** Vec3r: the Eigen 3-vector of reals *)

Record Vec3r : Type := vec3 { vx : R; vy : R; vz : R }.

Declare Scope vec_scope.
Delimit Scope vec_scope with vec.
Bind Scope vec_scope with Vec3r.

Definition vzero : Vec3r := vec3 0 0 0.
Definition vadd (a b : Vec3r) : Vec3r :=
  vec3 (vx a + vx b) (vy a + vy b) (vz a + vz b).
Definition vsub (a b : Vec3r) : Vec3r :=
  vec3 (vx a - vx b) (vy a - vy b) (vz a - vz b).
Definition vneg (a : Vec3r) : Vec3r := vec3 (- vx a) (- vy a) (- vz a).
(** scalar * vector, vector * scalar and vector / scalar *)
Definition vscale (k : R) (a : Vec3r) : Vec3r :=
  vec3 (k * vx a) (k * vy a) (k * vz a).
Definition vmuls (a : Vec3r) (k : R) : Vec3r :=
  vec3 (vx a * k) (vy a * k) (vz a * k).
Definition vdivs (a : Vec3r) (k : R) : Vec3r :=
  vec3 (vx a / k) (vy a / k) (vz a / k).
Definition dot (a b : Vec3r) : R := vx a * vx b + vy a * vy b + vz a * vz b.
Definition cross (a b : Vec3r) : Vec3r :=
  vec3 (vy a * vz b - vz a * vy b)
       (vz a * vx b - vx a * vz b)
       (vx a * vy b - vy a * vx b).
Definition squaredNorm (a : Vec3r) : R := dot a a.
Definition norm (a : Vec3r) : R := sqrt (squaredNorm a).
(** Eigen's [normalized()]: the vector over its norm, and the vector itself
    when its squared norm is not positive. *)
Definition normalized (a : Vec3r) : Vec3r :=
  if Rlt_dec 0 (squaredNorm a) then vdivs a (sqrt (squaredNorm a)) else a.
(** The element-wise product the lights write out component by component. *)
Definition cwiseProduct (a b : Vec3r) : Vec3r :=
  vec3 (vx a * vx b) (vy a * vy b) (vz a * vz b).

Infix "+v" := vadd (at level 50, left associativity) : vec_scope.
Infix "-v" := vsub (at level 50, left associativity) : vec_scope.
Infix "*v" := vscale (at level 40, left associativity) : vec_scope.

(** A 3x3 matrix given by its columns, as [A << u, v, w] fills it. *)
Record Matrix3 : Type := mat3 { col0 : Vec3r; col1 : Vec3r; col2 : Vec3r }.

Definition mulMV (A : Matrix3) (x : Vec3r) : Vec3r :=
  (vx x *v col0 A +v vy x *v col1 A +v vz x *v col2 A)%vec.
Definition det (A : Matrix3) : R := dot (col0 A) (cross (col1 A) (col2 A)).

(** ** Materials *)

(** [PhongMaterial]: the node name and the five coefficients. *)
Record PhongMaterial : Type := mkPhongMaterial {
  pm_name_ : string;
  ambient_ : Vec3r;
  diffuse_ : Vec3r;
  specular_ : Vec3r;
  shininess_ : R;
  mirror_ : Vec3r
}.

(** A material node is a [PhongMaterial] or a node of the base class
    [Material]; [std::dynamic_pointer_cast<PhongMaterial>] tells them
    apart. *)
Inductive Material : Type :=
| BaseMaterial (name : string)
| Phong (m : PhongMaterial).

Definition dynamic_pointer_cast_PhongMaterial (m : option Material)
  : option PhongMaterial :=
  match m with
  | Some (Phong p) => Some p
  | _ => None
  end.

Definition PhongMaterial_SetDiffuse (m : PhongMaterial) (diffuse : Vec3r)
  : PhongMaterial :=
  mkPhongMaterial (pm_name_ m) (ambient_ m) diffuse (specular_ m)
                  (shininess_ m) (mirror_ m).

(** [name.size() ? name : "PhongMaterial"] *)
Definition default_name (name fallback : string) : string :=
  if Nat.eqb (String.length name) 0 then fallback else name.

(** [PhongMaterial::PhongMaterial(name)]: the members other than the name
    and the diffuse colour keep the values [init] the class declaration
    gives them. *)
Definition PhongMaterial_named (init : PhongMaterial) (name : string)
  : PhongMaterial :=
  PhongMaterial_SetDiffuse
    (mkPhongMaterial (default_name name "PhongMaterial") (ambient_ init)
                     (diffuse_ init) (specular_ init) (shininess_ init)
                     (mirror_ init))
    vzero.

(** [PhongMaterial::PhongMaterial(ambient, diffuse, specular, shininess,
    mirror, name)] *)
Definition PhongMaterial_new (ambient diffuse specular : Vec3r)
  (shininess : R) (mirror : Vec3r) (name : string) : PhongMaterial :=
  PhongMaterial_SetDiffuse
    (mkPhongMaterial (default_name name "PhongMaterial") ambient vzero
                     specular shininess mirror)
    diffuse.

(** ** Lights *)

Record PointLight : Type := mkPointLight {
  position_ : Vec3r;
  intensity_ : Vec3r;
  point_light_name_ : string
}.

Record AmbientLight : Type := mkAmbientLight {
  light_ambient_ : Vec3r;
  ambient_light_name_ : string
}.

(** The three [Light] classes. *)
Inductive Light : Type :=
| BaseLight (name : string)
| PointLightL (l : PointLight)
| AmbientLightL (l : AmbientLight).

(** ** Surfaces *)

Record Sphere : Type := mkSphere {
  center_ : Vec3r;
  radius_ : R;
  sphere_name_ : string;
  sphere_material_ : option Material
}.

Record Triangle : Type := mkTriangle {
  point0_ : Vec3r;
  point1_ : Vec3r;
  point2_ : Vec3r;
  normal_ : Vec3r;
  triangle_name_ : string;
  triangle_material_ : option Material
}.

(** The three [Surface] classes.  A [SurfaceList] holds its children in
    [surfaces_]. *)
Inductive Surface : Type :=
| SphereS (s : Sphere)
| TriangleS (t : Triangle)
| SurfaceListS (name : string) (material : option Material)
               (surfaces_ : list Surface).

Definition Surface_GetMaterial (s : Surface) : option Material :=
  match s with
  | SphereS sp => sphere_material_ sp
  | TriangleS t => triangle_material_ t
  | SurfaceListS _ m _ => m
  end.

(** ** Ray and HitRecord *)

Record Ray : Type := mkRay { origin_ : Vec3r; dir_ : Vec3r }.

(** [Ray::Ray(origin, dir)] *)
Definition Ray_new (origin dir : Vec3r) : Ray :=
  mkRay origin (vdivs dir (norm dir)).

(** Modelled from the spec: [Ray::At] is declared in ray.h, which is not
    part of the sources; [At(t)] returns origin + t * direction. *)
Definition Ray_At (ray : Ray) (t : R) : Vec3r :=
  (origin_ ray +v t *v dir_ ray)%vec.

(** The surface of a record is a [std::shared_ptr<Surface>], which may be
    null. *)
Record HitRecord : Type := mkHitRecord {
  ray_t_ : R;
  point_ : Vec3r;
  hit_normal_ : Vec3r;
  surface_ : option Surface
}.

Definition SetRayT (h : HitRecord) (t : R) : HitRecord :=
  mkHitRecord t (point_ h) (hit_normal_ h) (surface_ h).
Definition SetPoint (h : HitRecord) (p : Vec3r) : HitRecord :=
  mkHitRecord (ray_t_ h) p (hit_normal_ h) (surface_ h).
Definition SetSurface (h : HitRecord) (s : option Surface) : HitRecord :=
  mkHitRecord (ray_t_ h) (point_ h) (hit_normal_ h) s.

(** Modelled from the spec: [HitRecord::SetNormal] is defined in ray.h,
    which is not part of the sources.  It orients the stored normal to
    oppose the ray direction: the face normal is flipped if
    faceNormal . ray.direction > 0. *)
Definition SetNormal (h : HitRecord) (ray : Ray) (face_normal : Vec3r)
  : HitRecord :=
  mkHitRecord (ray_t_ h) (point_ h)
    (if Rlt_dec 0 (dot face_normal (dir_ ray)) then vneg face_normal
     else face_normal)
    (surface_ h).

(** ** Sphere *)

(** [Sphere::Hit] *)
Definition Sphere_Hit (this : Sphere) (ray : Ray) (tmin tmax : R)
  (hit_record : HitRecord) : bool * HitRecord :=
  let oc := (origin_ ray -v center_ this)%vec in
  let discriminant :=
    dot (dir_ ray) oc * dot (dir_ ray) oc
    - dot (dir_ ray) (dir_ ray) * (dot oc oc - radius_ this * radius_ this) in
  if Rlt_dec discriminant 0 then (false, hit_record)
  else
    let tHit1 :=
      (dot (-1 *v dir_ ray)%vec oc - sqrt discriminant)
      / dot (dir_ ray) (dir_ ray) in
    let tHit2 :=
      (dot (-1 *v dir_ ray)%vec oc + sqrt discriminant)
      / dot (dir_ ray) (dir_ ray) in
    let wantedIntersect := std_min tHit1 tHit2 in
    if Rlt_b wantedIntersect tmin || Rlt_b tmax wantedIntersect
    then (false, hit_record)
    else
      let hit_point := Ray_At ray wantedIntersect in
      let hit_record := SetRayT hit_record wantedIntersect in
      let hit_record := SetPoint hit_record hit_point in
      let hit_record :=
        SetNormal hit_record ray
          (normalized (hit_point -v center_ this)%vec) in
      let hit_record := SetSurface hit_record (Some (SphereS this)) in
      (true, hit_record).

(** ** What the core takes from outside the repository's sources

    [std::pow] of the C library, the constants [kEpsilon] and [kInfinity] of
    core/types.h (the bounds of the range RayColor searches; both are real
    numbers here), the default-constructed [HitRecord] of ray.h, and Eigen's
    [A.colPivHouseholderQr().solve(b)], which returns the solution of
    [A x = b] when [A] is invertible. *)
Class Externals : Type := {
  std_pow : R -> R -> R;
  kEpsilon : R;
  kInfinity : R;
  HitRecord_default : HitRecord;
  colPivHouseholderQr_solve : Matrix3 -> Vec3r -> Vec3r;
  colPivHouseholderQr_solve_correct :
    forall A b, det A <> 0 -> mulMV A (colPivHouseholderQr_solve A b) = b
}.

(** Cramer's rule, one admissible solver. *)
Definition cramer_solve (A : Matrix3) (b : Vec3r) : Vec3r :=
  vec3 (det (mat3 b (col1 A) (col2 A)) / det A)
       (det (mat3 (col0 A) b (col2 A)) / det A)
       (det (mat3 (col0 A) (col1 A) b) / det A).

Definition reference_externals : Externals.
Proof.
  refine {|
    std_pow := fun x y =>
      if Req_dec_T x 0 then (if Req_dec_T y 0 then 1 else 0)
      else Rpower x y;
    kEpsilon := 1 / 1000000;
    kInfinity := 1000000000;
    HitRecord_default := mkHitRecord 0 vzero vzero None;
    colPivHouseholderQr_solve := cramer_solve
  |}.
  intros [[a1 a2 a3] [b1 b2 b3] [c1 c2 c3]] [x y z] Hdet.
  unfold det, cross, dot in Hdet; simpl in Hdet.
  unfold mulMV, cramer_solve, det, cross, dot, vadd, vscale; simpl.
  f_equal; field; exact Hdet.
Defined.

Section Model.
Context {E : Externals}.

(** ** Triangle *)

(** [Triangle::ComputeNormal] *)
Definition Triangle_ComputeNormal (this : Triangle) : Triangle :=
  mkTriangle (point0_ this) (point1_ this) (point2_ this)
    (vdivs
       (cross (point1_ this -v point0_ this) (point2_ this -v point0_ this))
       (norm
          (cross (point1_ this -v point0_ this)
                 (point2_ this -v point0_ this))))%vec
    (triangle_name_ this) (triangle_material_ this).

(** [Triangle::Triangle(point0, point1, point2, name)]; the material pointer
    of a new surface is null. *)
Definition Triangle_new (point0 point1 point2 : Vec3r) (name : string)
  : Triangle :=
  Triangle_ComputeNormal (mkTriangle point0 point1 point2 vzero name None).

(** [Triangle::SetPoints] *)
Definition Triangle_SetPoints (this : Triangle) (point0 point1 point2 : Vec3r)
  : Triangle :=
  mkTriangle point0 point1 point2 (normal_ this) (triangle_name_ this)
             (triangle_material_ this).

Definition Triangle_GetNormal (this : Triangle) : Vec3r := normal_ this.

(** [Triangle::RayTriangleHit]: [Some (ray_t, uv)] stands for the result
    [true] with the two output parameters, [None] for [false], which leaves
    them unset. *)
Definition RayTriangleHit (p0 p1 p2 : Vec3r) (ray : Ray) (tmin tmax : R)
  : option (R * (R * R)) :=
  let u := (p1 -v p0)%vec in
  let v := (p2 -v p0)%vec in
  let A := mat3 u v (-1 *v dir_ ray)%vec in
  let b := (origin_ ray -v p0)%vec in
  let x := colPivHouseholderQr_solve A b in
  if Rlt_b (vz x) tmin || Rlt_b tmax (vz x) then None
  else Some (vz x, (vx x, vy x)).

(** [Triangle::Hit] *)
Definition Triangle_Hit (this : Triangle) (ray : Ray) (tmin tmax : R)
  (hit_record : HitRecord) : bool * HitRecord :=
  if Req_b (dot (normal_ this) (dir_ ray)) 0 then (false, hit_record)
  else
    match RayTriangleHit (point0_ this) (point1_ this) (point2_ this)
                         ray tmin tmax with
    | None => (false, hit_record)
    | Some (ray_t, uv) =>
      let x := (ray_t *v dir_ ray +v origin_ ray)%vec in
      if Rlt_b (dot (cross (point1_ this -v point0_ this) (x -v point0_ this))
                    (normal_ this)) 0
      then (false, hit_record)
      else if Rlt_b (dot (cross (point2_ this -v point1_ this)
                                (x -v point1_ this))
                         (normal_ this)) 0
      then (false, hit_record)
      else if Rlt_b (dot (cross (point0_ this -v point2_ this)
                                (x -v point2_ this))
                         (normal_ this)) 0
      then (false, hit_record)
      else
        let hit_record := SetRayT hit_record ray_t in
        let hit_record := SetPoint hit_record (Ray_At ray ray_t) in
        let hit_record := SetNormal hit_record ray (normal_ this) in
        let hit_record := SetSurface hit_record (Some (TriangleS this)) in
        (true, hit_record)
    end.

(** ** SurfaceList *)

(** [SurfaceList::SurfaceList(surfaces, name)] *)
Definition SurfaceList_new (surfaces : list Surface) (name : string)
  : Surface :=
  SurfaceListS (default_name name "SurfaceList") None surfaces.

(** The loop of [SurfaceList::Hit] over the children still to test, with the
    three locals it updates: [hitAny], the caller's [hit_record] and
    [bestRecord].  [child_hit] is the virtual call [surface->Hit]. *)
Fixpoint SurfaceList_Hit_loop
  (child_hit : Surface -> Ray -> R -> R -> HitRecord -> bool * HitRecord)
  (ray : Ray) (tmin tmax : R) (surfaces : list Surface)
  (hitAny : bool) (hit_record bestRecord : HitRecord) {struct surfaces}
  : bool * HitRecord :=
  match surfaces with
  | [] => (hitAny, hit_record)
  | surface :: rest =>
    let (hit, bestRecord) := child_hit surface ray tmin tmax bestRecord in
    if hit then
      if Rlt_dec (ray_t_ bestRecord) (ray_t_ hit_record) then
        let hit_record := SetRayT hit_record (ray_t_ bestRecord) in
        let hit_record := SetPoint hit_record (point_ bestRecord) in
        let hit_record :=
          SetNormal hit_record ray (hit_normal_ bestRecord) in
        let hit_record := SetSurface hit_record (surface_ bestRecord) in
        SurfaceList_Hit_loop child_hit ray tmin tmax rest true
                             hit_record bestRecord
      else
        SurfaceList_Hit_loop child_hit ray tmin tmax rest true
                             hit_record bestRecord
    else
      SurfaceList_Hit_loop child_hit ray tmin tmax rest hitAny
                           hit_record bestRecord
  end.

(** [SurfaceList::Hit] over the children [surfaces] *)
Definition SurfaceList_Hit
  (child_hit : Surface -> Ray -> R -> R -> HitRecord -> bool * HitRecord)
  (surfaces : list Surface) (ray : Ray) (tmin tmax : R)
  (hit_record : HitRecord) : bool * HitRecord :=
  let hitAny := false in
  let hit_record := SetRayT hit_record tmax in
  let bestRecord := HitRecord_default in
  SurfaceList_Hit_loop child_hit ray tmin tmax surfaces hitAny
                       hit_record bestRecord.

(** [Surface::Hit], dispatched on the class of the surface. *)
Fixpoint Surface_Hit (s : Surface) (ray : Ray) (tmin tmax : R)
  (hit_record : HitRecord) {struct s} : bool * HitRecord :=
  match s with
  | SphereS sp => Sphere_Hit sp ray tmin tmax hit_record
  | TriangleS t => Triangle_Hit t ray tmin tmax hit_record
  | SurfaceListS _ _ surfaces =>
    SurfaceList_Hit Surface_Hit surfaces ray tmin tmax hit_record
  end.

(** ** Phong material and lights *)

(** [PhongMaterial::Evaluate] *)
Definition PhongMaterial_Evaluate (this : PhongMaterial)
  (hit_record : HitRecord) (light_vec view_vec : Vec3r) : Vec3r :=
  let biSect := normalized (view_vec +v light_vec)%vec in
  (diffuse_ this
   +v vmuls (specular_ this)
        (std_pow (std_max 0 (dot (hit_normal_ hit_record) biSect))
                 (shininess_ this)))%vec.

(** [PointLight::Illuminate].  The line printed on [std::cout] for a wrong
    material is not part of the result. *)
Definition PointLight_Illuminate (this : PointLight)
  (hit_record : HitRecord) (view_vec : Vec3r) : Vec3r :=
  let distanceSquared :=
    dot (position_ this -v point_ hit_record)
        (position_ this -v point_ hit_record) in
  let light_vec := normalized (position_ this -v point_ hit_record)%vec in
  let irradiance :=
    vdivs (vmuls (intensity_ this)
                 (std_max 0 (dot (hit_normal_ hit_record) light_vec)))
          distanceSquared in
  match surface_ hit_record with
  | None => vec3 0 0 0
  | Some surface =>
    match dynamic_pointer_cast_PhongMaterial (Surface_GetMaterial surface)
    with
    | None => vec3 0 0 0
    | Some material =>
      if negb (String.eqb (pm_name_ material) "PhongMaterial")
      then vec3 0 0 0
      else
        let attenuation :=
          PhongMaterial_Evaluate material hit_record light_vec view_vec in
        vec3 (vx irradiance * vx attenuation)
             (vy irradiance * vy attenuation)
             (vz irradiance * vz attenuation)
    end
  end.

(** [AmbientLight::Illuminate] *)
Definition AmbientLight_Illuminate (this : AmbientLight)
  (hit_record : HitRecord) (view_vec : Vec3r) : Vec3r :=
  match surface_ hit_record with
  | None => vec3 0 0 0
  | Some surface =>
    match dynamic_pointer_cast_PhongMaterial (Surface_GetMaterial surface)
    with
    | None => vec3 0 0 0
    | Some material =>
      if negb (String.eqb (pm_name_ material) "PhongMaterial")
      then vec3 0 0 0
      else
        let ambient := ambient_ material in
        vec3 (vx (light_ambient_ this) * vx ambient)
             (vy (light_ambient_ this) * vy ambient)
             (vz (light_ambient_ this) * vz ambient)
    end
  end.

(** The virtual call [light->Illuminate]; [Light::Illuminate] of the base
    class returns black. *)
Definition Light_Illuminate (light : Light) (hit_record : HitRecord)
  (view_vec : Vec3r) : Vec3r :=
  match light with
  | BaseLight _ => vec3 0 0 0
  | PointLightL l => PointLight_Illuminate l hit_record view_vec
  | AmbientLightL l => AmbientLight_Illuminate l hit_record view_vec
  end.

(** ** RayTracer *)

(** [RayTracer::RayColor]: the boolean result and [ray_color].  The result
    is [None] where the code dereferences the null surface pointer of the
    hit record. *)
Definition RayColor (ray : Ray) (scene : Surface) (lights : list Light)
  : option (bool * Vec3r) :=
  let ray_color := vec3 0 0 0 in
  let hit_record := HitRecord_default in
  let (hit, hit_record) :=
    Surface_Hit scene ray kEpsilon kInfinity hit_record in
  if negb hit then Some (false, ray_color)
  else
    match surface_ hit_record with
    | None => None
    | Some surface =>
      match dynamic_pointer_cast_PhongMaterial (Surface_GetMaterial surface)
      with
      | Some material =>
        if String.eqb (pm_name_ material) "PhongMaterial" then
          Some (true,
                fold_left
                  (fun ray_color light =>
                     (ray_color
                      +v Light_Illuminate light hit_record
                           (-1 *v dir_ ray))%vec)
                  lights ray_color)
        else Some (true, vec3 1 0 0)
      | None => Some (true, vec3 1 0 0)
      end
    end.

End Model.

(** ** Camera *)

(** A column of the 4x4 [camera_xform_] and its [head<3>()]. *)
Record Vec4r : Type := vec4 { v4x : R; v4y : R; v4z : R; v4w : R }.

Definition head3 (c : Vec4r) : Vec3r := vec3 (v4x c) (v4y c) (v4z c).
(** [c.head<3>() = v] *)
Definition set_head3 (c : Vec4r) (v : Vec3r) : Vec4r :=
  vec4 (vx v) (vy v) (vz v) (v4w c).

Record Mat4r : Type := mat4 {
  xcol0 : Vec4r; xcol1 : Vec4r; xcol2 : Vec4r; xcol3 : Vec4r
}.

Record Camera : Type := mkCamera {
  eye_ : Vec3r;
  target_ : Vec3r;
  up_ : Vec3r;
  fovy_ : R;
  aspect_ : R;
  camera_xform_ : Mat4r;
  horizontal_ : Vec3r;
  vertical_ : Vec3r;
  lower_left_corner_ : Vec3r;
  camera_name_ : string
}.

(** The constant [kPi] of core/types.h. *)
Class CameraExternals : Type := { kPi : R }.

Section CameraModel.
Context {CE : CameraExternals}.

(** [Camera::UpdateViewport] *)
Definition Camera_UpdateViewport (this : Camera) : Camera :=
  let vertical :=
    (2 * tan (fovy_ this * kPi / 360)
     *v head3 (xcol1 (camera_xform_ this)))%vec in
  let horizontal :=
    (aspect_ this * 2 * tan (fovy_ this * kPi / 360)
     *v head3 (xcol0 (camera_xform_ this)))%vec in
  let lower_left_corner :=
    (eye_ this -v head3 (xcol2 (camera_xform_ this))
     -v (5 / 10) *v (horizontal +v vertical))%vec in
  mkCamera (eye_ this) (target_ this) (up_ this) (fovy_ this) (aspect_ this)
           (camera_xform_ this) horizontal vertical lower_left_corner
           (camera_name_ this).

(** [Camera::LookAt] *)
Definition Camera_LookAt (this : Camera) (eye target up : Vec3r)
  (update_viewport : bool) : Camera :=
  let w := (eye -v target)%vec in
  let w := vdivs w (norm w) in
  let u := cross up w in
  let u := vdivs u (norm u) in
  let v := cross w u in
  let v := vdivs v (norm v) in
  let xform :=
    mat4 (set_head3 (xcol0 (camera_xform_ this)) u)
         (set_head3 (xcol1 (camera_xform_ this)) v)
         (set_head3 (xcol2 (camera_xform_ this)) w)
         (set_head3 (xcol3 (camera_xform_ this)) eye) in
  let this :=
    mkCamera eye target up (fovy_ this) (aspect_ this) xform
             (horizontal_ this) (vertical_ this) (lower_left_corner_ this)
             (camera_name_ this) in
  if update_viewport then Camera_UpdateViewport this else this.

(** [Camera::Camera(eye, target, up, fovy, aspect, name)]; [init] holds the
    values the class declaration gives the members. *)
Definition Camera_new (init : Camera) (eye target up : Vec3r)
  (fovy aspect : R) (name : string) : Camera :=
  let this :=
    mkCamera (eye_ init) (target_ init) (up_ init) fovy aspect
             (camera_xform_ init) (horizontal_ init) (vertical_ init)
             (lower_left_corner_ init) name in
  Camera_LookAt this eye target up true.

(** [Camera::SetFovy] *)
Definition Camera_SetFovy (this : Camera) (fovy : R) (update_viewport : bool)
  : Camera :=
  let this :=
    mkCamera (eye_ this) (target_ this) (up_ this) fovy (aspect_ this)
             (camera_xform_ this) (horizontal_ this) (vertical_ this)
             (lower_left_corner_ this) (camera_name_ this) in
  if update_viewport then Camera_UpdateViewport this else this.

(** [Camera::SetAspect] *)
Definition Camera_SetAspect (this : Camera) (aspect : R)
  (update_viewport : bool) : Camera :=
  let this :=
    mkCamera (eye_ this) (target_ this) (up_ this) (fovy_ this) aspect
             (camera_xform_ this) (horizontal_ this) (vertical_ this)
             (lower_left_corner_ this) (camera_name_ this) in
  if update_viewport then Camera_UpdateViewport this else this.

Definition Camera_GetEye (this : Camera) : Vec3r := eye_ this.
Definition Camera_GetTarget (this : Camera) : Vec3r := target_ this.
Definition Camera_GetUpVector (this : Camera) : Vec3r := up_ this.
Definition Camera_GetCameraXform (this : Camera) : Mat4r :=
  camera_xform_ this.
Definition Camera_GetFovy (this : Camera) : R := fovy_ this.
Definition Camera_GetAspectRatio (this : Camera) : R := aspect_ this.

End CameraModel.

(** The axes u, v, w of a camera: the first three columns of its
    transform. *)
Definition Camera_u (c : Camera) : Vec3r := head3 (xcol0 (camera_xform_ c)).
Definition Camera_v (c : Camera) : Vec3r := head3 (xcol1 (camera_xform_ c)).
Definition Camera_w (c : Camera) : Vec3r := head3 (xcol2 (camera_xform_ c)).

(** ** Sphere and triangle accessors, ray.cc *)

(** [Sphere::Sphere(center, radius, name)]; the material pointer of a new
    surface is null. *)
Definition Sphere_new (center : Vec3r) (radius : R) (name : string)
  : Sphere :=
  mkSphere center radius name None.

(** [Sphere::SetCenter], [Sphere::SetRadius] *)
Definition Sphere_SetCenter (this : Sphere) (center : Vec3r) : Sphere :=
  mkSphere center (radius_ this) (sphere_name_ this) (sphere_material_ this).
Definition Sphere_SetRadius (this : Sphere) (radius : R) : Sphere :=
  mkSphere (center_ this) radius (sphere_name_ this) (sphere_material_ this).
Definition Sphere_GetCenter (this : Sphere) : Vec3r := center_ this.
Definition Sphere_GetRadius (this : Sphere) : R := radius_ this.

(** [HitRecord::HitRecord(ray, ray_t, point, face_normal)]; the surface
    pointer of a new record is null. *)
Definition HitRecord_new (ray : Ray) (ray_t : R) (point face_normal : Vec3r)
  : HitRecord :=
  SetNormal (mkHitRecord ray_t point vzero None) ray face_normal.

(** ** RayTracer: the progress counter *)

(** The three progress members of [RayTracer]: whether [progress_bar_]
    points to a bar, and the two [size_t] counters.  A [size_t] is a 64-bit
    unsigned integer.  The mutex and what the bar prints are not part of the
    state. *)
Record Progress : Type := mkProgress {
  progress_bar_ : bool;
  progress_bar_done_pixels_ : Z;
  progress_bar_total_pixels_ : Z
}.

Definition size_t_of (n : Z) : Z := (n mod 2 ^ 64)%Z.

(** [RayTracer::RenderProgressStart] *)
Definition RenderProgressStart (this : Progress) (total_pixels : Z)
  : Progress :=
  mkProgress true 0%Z total_pixels.

(** [RayTracer::RenderProgressIncDonePixels] *)
Definition RenderProgressIncDonePixels (this : Progress) : Progress :=
  mkProgress (progress_bar_ this)
    (Z.min (size_t_of (progress_bar_done_pixels_ this + 1))
           (progress_bar_total_pixels_ this))
    (progress_bar_total_pixels_ this).

(** [RayTracer::RenderProgressEnd] *)
Definition RenderProgressEnd (this : Progress) : Progress :=
  mkProgress false (progress_bar_done_pixels_ this)
             (progress_bar_total_pixels_ this).

(** ** RaytraParser *)

(** A line of a scene file as the parser sees it after [trim] and the
    extractions [iss >> ...]: the command it starts with and the numbers
    read from it.  [LineSkipped] is an empty line, a comment or a line with
    another command character; [LineOtherLight] is an [l] line whose light
    type is neither [a] nor [p].  The text of a line and the conversion of
    its fields to numbers are not modelled. *)
Inductive Line : Type :=
| LineSkipped
| LineSphere (x y z r : R)
| LineCamera (x y z vx vy vz focal_length viewport_width viewport_height
              pixels_width pixels_height : R)
| LineTriangle (ax ay az bx by_ bz cx cy cz : R)
| LineAmbientLight (r g b : R)
| LinePointLight (x y z r g b : R)
| LineOtherLight
| LineMaterial (dr dg db sr sg sb r ir ig ib : R).

(** What [ParseFile] takes from outside the sources: [atan2] of the C
    library, [kRADtoDEG] of core/types.h, Eigen's [isApprox], the conversion
    [static_cast<int>] of a real, the default argument of the [mirror]
    parameter of the [PhongMaterial] constructor and the member
    initialisers of [Camera]. *)
Class ParserExternals : Type := {
  std_atan2 : R -> R -> R;
  kRADtoDEG : R;
  isApprox : Vec3r -> Vec3r -> bool;
  static_cast_int : R -> Z;
  PhongMaterial_mirror_default : Vec3r;
  Camera_members_default : Camera
}.

(** The locals of [ParseFile] and the three output parameters it fills
    while it reads: [lights], [camera] and [image_size]. *)
Record ParseState : Type := mkParseState {
  camera_count : Z;
  surface_count : Z;
  ambient_light_count : Z;
  current_material : option PhongMaterial;
  surface_list : list Surface;
  parsed_lights : list Light;
  parsed_camera : option Camera;
  parsed_image_size : Z * Z
}.

(** The result of [ParseFile]: its boolean and the four output parameters;
    [result_scene] is [None] where [scene] is left as the caller had it. *)
Record ParseResult : Type := mkParseResult {
  result_ok : bool;
  result_scene : option Surface;
  result_lights : list Light;
  result_camera : option Camera;
  result_image_size : Z * Z
}.

(** [isfinite] of a real number. *)
Definition isfinite (x : R) : bool := true.

Definition Rle_b (a b : R) : bool := if Rle_dec a b then true else false.

(** [sphere->SetMaterial(m)], [triangle->SetMaterial(m)] *)
Definition Sphere_SetMaterial (this : Sphere) (m : option Material)
  : Sphere :=
  mkSphere (center_ this) (radius_ this) (sphere_name_ this) m.
Definition Triangle_SetMaterial (this : Triangle) (m : option Material)
  : Triangle :=
  mkTriangle (point0_ this) (point1_ this) (point2_ this) (normal_ this)
             (triangle_name_ this) m.

Section ParserModel.
Context {CE : CameraExternals} {PE : ParserExternals}.

(** The body of the loop of [ParseFile] for one line: [(false, st)] where
    the function returns false from inside the loop, with the output
    parameters as they are at that point. *)
Definition parse_line (st : ParseState) (line : Line)
  : bool * ParseState :=
  match line with
  | LineSkipped => (true, st)
  | LineSphere x y z r =>
    match current_material st with
    | None => (false, st)
    | Some material =>
      let sphere :=
        Sphere_SetMaterial (Sphere_new (vec3 x y z) r "")
                           (Some (Phong material)) in
      (true,
       mkParseState (camera_count st) (surface_count st + 1)
         (ambient_light_count st) (current_material st)
         (surface_list st ++ [SphereS sphere]) (parsed_lights st)
         (parsed_camera st) (parsed_image_size st))
    end
  | LineCamera x y z vx vy vz focal_length viewport_width viewport_height
               pixels_width pixels_height =>
    let eye := vec3 x y z in
    let view_vec := normalized (vec3 vx vy vz) in
    let target := (eye +v view_vec)%vec in
    let up_vec :=
      if isApprox view_vec (vec3 0 1 0) then vec3 0 0 1 else vec3 0 1 0 in
    let fovy :=
      2 * std_atan2 (viewport_height * (5 / 10)) focal_length * kRADtoDEG in
    let viewport_aspect := viewport_width / viewport_height in
    if negb (isfinite viewport_aspect) || Rle_b viewport_aspect 0
    then (false, st)
    else
      (true,
       mkParseState (camera_count st + 1) (surface_count st)
         (ambient_light_count st) (current_material st) (surface_list st)
         (parsed_lights st)
         (Some (Camera_new Camera_members_default eye target up_vec fovy
                           viewport_aspect ""))
         (static_cast_int pixels_width, static_cast_int pixels_height))
  | LineTriangle ax ay az bx by_ bz cx cy cz =>
    match current_material st with
    | None => (false, st)
    | Some material =>
      let triangle :=
        Triangle_SetMaterial
          (Triangle_new (vec3 ax ay az) (vec3 bx by_ bz) (vec3 cx cy cz) "")
          (Some (Phong material)) in
      (true,
       mkParseState (camera_count st) (surface_count st + 1)
         (ambient_light_count st) (current_material st)
         (surface_list st ++ [TriangleS triangle]) (parsed_lights st)
         (parsed_camera st) (parsed_image_size st))
    end
  | LineAmbientLight r g b =>
    (true,
     mkParseState (camera_count st) (surface_count st)
       (ambient_light_count st + 1) (current_material st) (surface_list st)
       (parsed_lights st
        ++ [AmbientLightL (mkAmbientLight (vec3 r g b) "")])
       (parsed_camera st) (parsed_image_size st))
  | LinePointLight x y z r g b =>
    (true,
     mkParseState (camera_count st) (surface_count st)
       (ambient_light_count st) (current_material st) (surface_list st)
       (parsed_lights st
        ++ [PointLightL (mkPointLight (vec3 x y z) (vec3 r g b) "")])
       (parsed_camera st) (parsed_image_size st))
  | LineOtherLight => (true, st)
  | LineMaterial dr dg db sr sg sb r ir ig ib =>
    let diffuse := vec3 dr dg db in
    let specular := vec3 sr sg sb in
    (true,
     mkParseState (camera_count st) (surface_count st)
       (ambient_light_count st)
       (Some (PhongMaterial_new diffuse diffuse specular r
                                PhongMaterial_mirror_default ""))
       (surface_list st) (parsed_lights st) (parsed_camera st)
       (parsed_image_size st))
  end.

(** The loop [for (string line; getline(in, line);)]. *)
Fixpoint parse_lines (st : ParseState) (lines : list Line)
  : bool * ParseState :=
  match lines with
  | [] => (true, st)
  | line :: rest =>
    let (ok, st) := parse_line st line in
    if ok then parse_lines st rest else (false, st)
  end.

(** [RaytraParser::ParseFile] on a file that exists and opens, given by
    its lines; [lights], [camera] and [image_size] are the values of the
    output parameters on entry. *)
Definition ParseLines (lines : list Line) (lights : list Light)
  (camera : option Camera) (image_size : Z * Z) : ParseResult :=
  let st := mkParseState 0 0 0 None [] lights camera image_size in
  let (ok, st) := parse_lines st lines in
  if negb ok then
    mkParseResult false None (parsed_lights st) (parsed_camera st)
                  (parsed_image_size st)
  else if (1 <? ambient_light_count st)%Z then
    mkParseResult false None (parsed_lights st) (parsed_camera st)
                  (parsed_image_size st)
  else if negb (camera_count st =? 1)%Z then
    mkParseResult false None (parsed_lights st) (parsed_camera st)
                  (parsed_image_size st)
  else
    mkParseResult true (Some (SurfaceList_new (surface_list st) ""))
                  (parsed_lights st) (parsed_camera st)
                  (parsed_image_size st).

(** [RaytraParser::ParseFile]: [file] is [None] when the file does not
    exist or cannot be opened. *)
Definition ParseFile (file : option (list Line)) (lights : list Light)
  (camera : option Camera) (image_size : Z * Z) : ParseResult :=
  match file with
  | None => mkParseResult false None lights camera image_size
  | Some lines => ParseLines lines lights camera image_size
  end.

End ParserModel.

(** * Reference definitions, in the words of the specification *)

(** normalize(v): the vector over its length. *)
Definition normalize (v : Vec3r) : Vec3r := vdivs v (norm v).

(** A normal oriented to oppose the ray: flipped if it points along the ray
    direction. *)
Definition oriented_normal (ray : Ray) (n : Vec3r) : Vec3r :=
  if Rlt_dec 0 (dot n (dir_ ray)) then vneg n else n.

(** Sphere: the discriminant (D.oc)^2 - (D.D)(oc.oc - r^2) with oc = O - C,
    and the two roots of the quadratic. *)
Definition sphere_oc (s : Sphere) (ray : Ray) : Vec3r :=
  (origin_ ray -v center_ s)%vec.
Definition sphere_discriminant (s : Sphere) (ray : Ray) : R :=
  (dot (dir_ ray) (sphere_oc s ray)) ^ 2
  - dot (dir_ ray) (dir_ ray)
    * (dot (sphere_oc s ray) (sphere_oc s ray) - (radius_ s) ^ 2).
Definition sphere_root1 (s : Sphere) (ray : Ray) : R :=
  (- dot (dir_ ray) (sphere_oc s ray) - sqrt (sphere_discriminant s ray))
  / dot (dir_ ray) (dir_ ray).
Definition sphere_root2 (s : Sphere) (ray : Ray) : R :=
  (- dot (dir_ ray) (sphere_oc s ray) + sqrt (sphere_discriminant s ray))
  / dot (dir_ ray) (dir_ ray).
Definition sphere_smaller_root (s : Sphere) (ray : Ray) : R :=
  Rmin (sphere_root1 s ray) (sphere_root2 s ray).
Definition sphere_larger_root (s : Sphere) (ray : Ray) : R :=
  Rmax (sphere_root1 s ray) (sphere_root2 s ray).

(** The record a sphere hit at parameter [t] fills in. *)
Definition sphere_hit_record (s : Sphere) (ray : Ray) (t : R) : HitRecord :=
  mkHitRecord t (Ray_At ray t)
    (oriented_normal ray (normalize (Ray_At ray t -v center_ s)%vec))
    (Some (SphereS s)).

(** Triangle: the linear system [u v -D] [beta gamma t]^T = O - p0 with
    u = p1 - p0 and v = p2 - p0, its solution, and the half-plane test of
    the edge from [a] to [b] at the point [x]. *)
Definition triangle_system (t : Triangle) (ray : Ray) : Matrix3 :=
  mat3 (point1_ t -v point0_ t)%vec (point2_ t -v point0_ t)%vec
       (vneg (dir_ ray)).
Definition triangle_rhs (t : Triangle) (ray : Ray) : Vec3r :=
  (origin_ ray -v point0_ t)%vec.
Definition edge_test (a b x n : Vec3r) : R :=
  dot (cross (b -v a)%vec (x -v a)%vec) n.
Definition triangle_inside (t : Triangle) (x : Vec3r) : Prop :=
  0 <= edge_test (point0_ t) (point1_ t) x (normal_ t)
  /\ 0 <= edge_test (point1_ t) (point2_ t) x (normal_ t)
  /\ 0 <= edge_test (point2_ t) (point0_ t) x (normal_ t).
Definition triangle_hit_record (t : Triangle) (ray : Ray) (rt : R)
  : HitRecord :=
  mkHitRecord rt (Ray_At ray rt) (oriented_normal ray (normal_ t))
              (Some (TriangleS t)).
(** The invariant of a triangle: normal = normalize((p1 - p0) x (p2 - p0)). *)
Definition triangle_normal_of (p0 p1 p2 : Vec3r) : Vec3r :=
  normalize (cross (p1 -v p0)%vec (p2 -v p0)%vec).
Definition Triangle_invariant (t : Triangle) : Prop :=
  normal_ t = triangle_normal_of (point0_ t) (point1_ t) (point2_ t).

Section Reference.
Context {E : Externals}.

Definition triangle_solution (t : Triangle) (ray : Ray) : Vec3r :=
  colPivHouseholderQr_solve (triangle_system t ray) (triangle_rhs t ray).

End Reference.

(** SurfaceList: the results of the children in list order, each child being
    handed the range [tmin, tmax] and the scratch record the previous child
    left behind; the records of the children that reported a hit; and the
    rule that keeps the nearer of the stored record and a child's record. *)
Fixpoint child_results
  (child_hit : Surface -> Ray -> R -> R -> HitRecord -> bool * HitRecord)
  (ray : Ray) (tmin tmax : R) (surfaces : list Surface)
  (bestRecord : HitRecord) : list (bool * HitRecord) :=
  match surfaces with
  | [] => []
  | surface :: rest =>
    let r := child_hit surface ray tmin tmax bestRecord in
    r :: child_results child_hit ray tmin tmax rest (snd r)
  end.

Definition accepted_hits (results : list (bool * HitRecord))
  : list HitRecord :=
  map snd (filter fst results).

(** The copy of a child's record into the caller's record. *)
Definition copied_record (ray : Ray) (h : HitRecord) : HitRecord :=
  mkHitRecord (ray_t_ h) (point_ h) (oriented_normal ray (hit_normal_ h))
              (surface_ h).

Definition keep_nearer (ray : Ray) (stored h : HitRecord) : HitRecord :=
  if Rlt_dec (ray_t_ h) (ray_t_ stored) then copied_record ray h else stored.

(** Shading.  The material of a hit that the lights and RayColor accept as
    Phong-capable: the hit has a surface, the surface's material is a
    [PhongMaterial], and the node name of that material is
    "PhongMaterial". *)
Definition compatible_material (surface : option Surface)
  : option PhongMaterial :=
  match surface with
  | None => None
  | Some s =>
    match dynamic_pointer_cast_PhongMaterial (Surface_GetMaterial s) with
    | None => None
    | Some m =>
      if String.eqb (pm_name_ m) "PhongMaterial" then Some m else None
    end
  end.

(** irradiance = intensity * max(0, normal . lightVec) / |position - hitPoint|^2
    with lightVec = normalize(position - hitPoint). *)
Definition point_irradiance (l : PointLight) (h : HitRecord) : Vec3r :=
  let lightVec := normalize (position_ l -v point_ h)%vec in
  let k := Rmax 0 (dot (hit_normal_ h) lightVec)
           / norm (position_ l -v point_ h)%vec ^ 2 in
  vec3 (vx (intensity_ l) * k) (vy (intensity_ l) * k) (vz (intensity_ l) * k).

Section ShadingReference.
Context {E : Externals}.

(** diffuse + specular * max(0, normal . half)^shininess per channel, with
    half = normalize(viewVec + lightVec). *)
Definition blinn_phong_response (m : PhongMaterial)
  (normal lightVec viewVec : Vec3r) : Vec3r :=
  let half := normalize (viewVec +v lightVec)%vec in
  let s := std_pow (Rmax 0 (dot normal half)) (shininess_ m) in
  vec3 (vx (diffuse_ m) + vx (specular_ m) * s)
       (vy (diffuse_ m) + vy (specular_ m) * s)
       (vz (diffuse_ m) + vz (specular_ m) * s).

(** What a point light contributes at a hit with the material [m]. *)
Definition point_light_radiance (l : PointLight) (m : PhongMaterial)
  (h : HitRecord) (viewVec : Vec3r) : Vec3r :=
  cwiseProduct (point_irradiance l h)
    (blinn_phong_response m (hit_normal_ h)
       (normalize (position_ l -v point_ h)%vec) viewVec).

End ShadingReference.

(** The sum of a list of colours. *)
Definition sum_colors (cs : list Vec3r) : Vec3r := fold_right vadd vzero cs.

(** A record as every successful hit should leave it: a normal of unit
    length that opposes the ray, and the surface that was hit. *)
Definition front_facing_unit (ray : Ray) (h : HitRecord) : Prop :=
  norm (hit_normal_ h) = 1
  /\ 0 <= dot (hit_normal_ h) (vneg (dir_ ray))
  /\ surface_ h <> None.

(** The invariants of the surfaces of a scene: a sphere has a non-zero
    radius, the normal of a triangle is the one of its points. *)
Fixpoint Surface_invariant (s : Surface) : Prop :=
  match s with
  | SphereS sp => radius_ sp <> 0
  | TriangleS t => Triangle_invariant t
  | SurfaceListS _ _ surfaces =>
    (fix all (l : list Surface) : Prop :=
       match l with
       | [] => True
       | x :: rest => Surface_invariant x /\ all rest
       end) surfaces
  end.

(** Concrete scene data used in the examples below. *)
Definition HitRecord_empty : HitRecord := mkHitRecord 0 vzero vzero None.
Definition example_ray : Ray := Ray_new (vec3 0 0 0) (vec3 0 0 1).
Definition example_sphere_with (material : option Material) : Sphere :=
  mkSphere (vec3 0 0 3) 1 "ball" material.
Definition example_sphere : Sphere := example_sphere_with None.

Definition example_ray_down : Ray :=
  Ray_new (vec3 (1 / 4) (1 / 4) 1) (vec3 0 0 (-1)).
Definition example_triangle : Triangle :=
  Triangle_new (vec3 0 0 0) (vec3 1 0 0) (vec3 0 1 0) "tri".

Definition example_ray_x : Ray := Ray_new (vec3 0 0 0) (vec3 1 0 0).
Definition example_scene : Surface :=
  SurfaceListS "SurfaceList" None [SphereS example_sphere].

Definition example_gold : PhongMaterial :=
  PhongMaterial_new (vec3 1 (1 / 2) 0) (vec3 1 1 1) (vec3 0 0 0) 10
                    (vec3 0 0 0) "gold".
Definition example_plain : PhongMaterial :=
  PhongMaterial_new (vec3 1 (1 / 2) 0) (vec3 1 1 1) (vec3 0 0 0) 10
                    (vec3 0 0 0) "".
Definition example_hit_on (m : PhongMaterial) : HitRecord :=
  mkHitRecord 2 (vec3 0 0 2) (vec3 0 0 (-1))
              (Some (SphereS (example_sphere_with (Some (Phong m))))).
Definition example_ambient_light : AmbientLight :=
  mkAmbientLight (vec3 (1 / 5) (1 / 5) (1 / 5)) "".
Definition example_point_light : PointLight :=
  mkPointLight (vec3 0 0 (-3)) (vec3 1 1 1) "".

Definition example_matte : PhongMaterial :=
  PhongMaterial_new (vec3 0 0 0) (vec3 1 1 1) (vec3 0 0 0) 1 (vec3 0 0 0) "".
Definition example_floor_hit : HitRecord :=
  mkHitRecord 1 (vec3 0 0 0) (vec3 0 0 1)
              (Some (TriangleS
                       (mkTriangle (vec3 0 0 0) (vec3 1 0 0) (vec3 0 1 0)
                                   (vec3 0 0 1) "floor"
                                   (Some (Phong example_matte))))).
Definition example_lamp : PointLight :=
  mkPointLight (vec3 0 0 5) (vec3 1 1 1) "".

(** Camera examples: the members of an unset camera, [kPi], and the camera
    at (0,0,1) looking at the origin with (0,1,0) up. *)
Definition Camera_empty : Camera :=
  mkCamera vzero vzero vzero 0 0
           (mat4 (vec4 1 0 0 0) (vec4 0 1 0 0) (vec4 0 0 1 0) (vec4 0 0 0 1))
           vzero vzero vzero "".
Definition reference_camera_externals : CameraExternals := {| kPi := PI |}.
Definition example_eye : Vec3r := vec3 0 0 1.
Definition example_target : Vec3r := vec3 0 0 0.
Definition example_up : Vec3r := vec3 0 1 0.

(** The ray meets the sphere at the parameter [t]. *)
Definition on_sphere (s : Sphere) (ray : Ray) (t : R) : Prop :=
  squaredNorm (Ray_At ray t -v center_ s)%vec = radius_ s ^ 2.

(** [t] is the first parameter at which the ray (as a full line) meets the
    sphere. *)
Definition first_on_sphere (s : Sphere) (ray : Ray) (t : R) : Prop :=
  on_sphere s ray t /\ forall t', on_sphere s ray t' -> t <= t'.

(** A surface that is not a list: a sphere or a triangle. *)
Definition flat_surface (s : Surface) : Prop :=
  match s with
  | SurfaceListS _ _ _ => False
  | _ => True
  end.

(** The record a surface reports when it is handed the default record, as
    a list of at most one element. *)
Definition hit_of {E : Externals} (ray : Ray) (tmin tmax : R) (s : Surface)
  : list HitRecord :=
  if fst (Surface_Hit s ray tmin tmax HitRecord_default)
  then [snd (Surface_Hit s ray tmin tmax HitRecord_default)]
  else [].

(** Scene files: the kinds of lines, what the light lines of a file add to
    [lights], and what the parser guarantees of every surface it builds: it
    is a sphere or a triangle carrying a Phong material named
    "PhongMaterial" whose ambient coefficient is its diffuse colour. *)
Definition is_surface_line (l : Line) : bool :=
  match l with
  | LineSphere _ _ _ _ | LineTriangle _ _ _ _ _ _ _ _ _ => true
  | _ => false
  end.
Definition is_material_line (l : Line) : bool :=
  match l with
  | LineMaterial _ _ _ _ _ _ _ _ _ _ => true
  | _ => false
  end.
Definition is_camera_line (l : Line) : bool :=
  match l with
  | LineCamera _ _ _ _ _ _ _ _ _ _ _ => true
  | _ => false
  end.
Definition is_ambient_line (l : Line) : bool :=
  match l with
  | LineAmbientLight _ _ _ => true
  | _ => false
  end.
Definition count_lines (f : Line -> bool) (lines : list Line) : Z :=
  Z.of_nat (List.length (filter f lines)).
Definition lights_of_line (l : Line) : list Light :=
  match l with
  | LineAmbientLight r g b =>
    [AmbientLightL (mkAmbientLight (vec3 r g b) "")]
  | LinePointLight x y z r g b =>
    [PointLightL (mkPointLight (vec3 x y z) (vec3 r g b) "")]
  | _ => []
  end.
Definition parsed_surface (s : Surface) : Prop :=
  flat_surface s
  /\ exists m,
      Surface_GetMaterial s = Some (Phong m)
      /\ pm_name_ m = "PhongMaterial"%string
      /\ ambient_ m = diffuse_ m.

(** The material the parser holds, if any, came from a material line. *)
Definition material_from_line (st : ParseState) : Prop :=
  forall m,
    current_material st = Some m ->
    pm_name_ m = "PhongMaterial"%string /\ ambient_ m = diffuse_ m.

Definition reference_parser_externals : ParserExternals :=
  {| std_atan2 := fun y x => atan (y / x);
     kRADtoDEG := 180 / PI;
     isApprox := fun a b => Req_b (squaredNorm (a -v b)%vec) 0;
     static_cast_int := fun x => (up x - 1)%Z;
     PhongMaterial_mirror_default := vzero;
     Camera_members_default := Camera_empty |}.

(** A scene file: a material, the unit sphere around (0,0,3), a camera at
    the origin looking along +z, and an ambient light. *)
Definition example_file : list Line :=
  [LineMaterial 1 1 1 0 0 0 10 0 0 0;
   LineSphere 0 0 3 1;
   LineCamera 0 0 0 0 0 1 1 2 2 100 100;
   LineAmbientLight (1 / 5) (1 / 5) (1 / 5)].

Definition example_parsed_sphere : Sphere :=
  mkSphere (vec3 0 0 3) 1 ""
    (Some (Phong (PhongMaterial_new (vec3 1 1 1) (vec3 1 1 1) (vec3 0 0 0)
                                    10 vzero ""))).
Definition example_parsed_scene : Surface :=
  SurfaceListS "SurfaceList" None [SphereS example_parsed_sphere].

(** * Properties *)

(** ** Arithmetic and vector lemmas *)

Lemma Rlt_b_true (a b : R) : Rlt_b a b = true <-> a < b.
Proof. unfold Rlt_b; destruct (Rlt_dec a b); split; intros; easy. Qed.

Lemma Rlt_b_false (a b : R) : Rlt_b a b = false <-> b <= a.
Proof.
  unfold Rlt_b; destruct (Rlt_dec a b); split; intros; try easy; lra.
Qed.

Lemma Req_b_true (a b : R) : Req_b a b = true <-> a = b.
Proof. unfold Req_b; destruct (Req_dec_T a b); split; intros; easy. Qed.

Lemma Req_b_false (a b : R) : Req_b a b = false <-> a <> b.
Proof. unfold Req_b; destruct (Req_dec_T a b); split; intros; easy. Qed.

Lemma std_min_Rmin (a b : R) : std_min a b = Rmin a b.
Proof.
  unfold std_min, Rmin; destruct (Rlt_dec b a), (Rle_dec a b); lra.
Qed.

Lemma std_max_Rmax (a b : R) : std_max a b = Rmax a b.
Proof.
  unfold std_max, Rmax; destruct (Rlt_dec a b), (Rle_dec a b); lra.
Qed.

Lemma vec3_eq (a b : Vec3r) :
  vx a = vx b -> vy a = vy b -> vz a = vz b -> a = b.
Proof. destruct a, b; simpl; intros; subst; reflexivity. Qed.

Lemma dot_comm (a b : Vec3r) : dot a b = dot b a.
Proof. unfold dot; ring. Qed.

Lemma dot_vscale_l (k : R) (a b : Vec3r) : dot (k *v a)%vec b = k * dot a b.
Proof. unfold dot, vscale; simpl; ring. Qed.

Lemma dot_vneg_l (a b : Vec3r) : dot (vneg a) b = - dot a b.
Proof. unfold dot, vneg; simpl; ring. Qed.

Lemma vadd_comm (a b : Vec3r) : (a +v b)%vec = (b +v a)%vec.
Proof. apply vec3_eq; simpl; ring. Qed.

Lemma vadd_assoc (a b c : Vec3r) : (a +v b +v c)%vec = (a +v (b +v c))%vec.
Proof. apply vec3_eq; simpl; ring. Qed.

Lemma vadd_zero_l (a : Vec3r) : (vzero +v a)%vec = a.
Proof. apply vec3_eq; simpl; ring. Qed.

Lemma squaredNorm_nonneg (a : Vec3r) : 0 <= squaredNorm a.
Proof. unfold squaredNorm, dot; nra. Qed.

Lemma squaredNorm_zero (a : Vec3r) : squaredNorm a = 0 -> a = vzero.
Proof.
  unfold squaredNorm, dot; intros H.
  apply vec3_eq; simpl; nra.
Qed.

Lemma norm_sqr (a : Vec3r) : norm a ^ 2 = squaredNorm a.
Proof.
  unfold norm. rewrite <- Rsqr_pow2. apply Rsqr_sqrt, squaredNorm_nonneg.
Qed.

(** Eigen's [normalized()] is division by the length; on the zero vector
    both give the zero vector. *)
Lemma normalized_normalize (a : Vec3r) : normalized a = normalize a.
Proof.
  unfold normalized, normalize, norm.
  destruct (Rlt_dec 0 (squaredNorm a)) as [Hpos | Hnpos]; [reflexivity |].
  assert (Hz : squaredNorm a = 0) by (pose proof (squaredNorm_nonneg a); lra).
  rewrite (squaredNorm_zero a Hz) at 1.
  rewrite (squaredNorm_zero a Hz) at 1.
  apply vec3_eq; unfold vdivs, vzero; simpl; unfold Rdiv; ring.
Qed.

Lemma squaredNorm_vdivs (a : Vec3r) (k : R) :
  k <> 0 -> squaredNorm (vdivs a k) = squaredNorm a / (k * k).
Proof. intros Hk; unfold squaredNorm, dot, vdivs; simpl; field; exact Hk. Qed.

Lemma normalize_unit (a : Vec3r) :
  0 < squaredNorm a -> squaredNorm (normalize a) = 1.
Proof.
  intros Hpos. unfold normalize, norm.
  assert (Hs : 0 < sqrt (squaredNorm a)) by (apply sqrt_lt_R0; exact Hpos).
  rewrite squaredNorm_vdivs by lra.
  rewrite sqrt_sqrt by lra. field; lra.
Qed.

Lemma norm_of_squaredNorm_1 (a : Vec3r) : squaredNorm a = 1 -> norm a = 1.
Proof. intros H. unfold norm. rewrite H. apply sqrt_1. Qed.

Lemma squaredNorm_vneg (a : Vec3r) : squaredNorm (vneg a) = squaredNorm a.
Proof. unfold squaredNorm, dot, vneg; simpl; ring. Qed.

Lemma oriented_normal_squaredNorm (ray : Ray) (n : Vec3r) :
  squaredNorm (oriented_normal ray n) = squaredNorm n.
Proof.
  unfold oriented_normal; destruct (Rlt_dec _ _);
    [apply squaredNorm_vneg | reflexivity].
Qed.

Lemma oriented_normal_front_facing (ray : Ray) (n : Vec3r) :
  0 <= dot (oriented_normal ray n) (-1 *v dir_ ray)%vec.
Proof.
  unfold oriented_normal; destruct (Rlt_dec _ _) as [H | H];
    rewrite dot_comm, dot_vscale_l, dot_comm.
  - rewrite dot_vneg_l; lra.
  - lra.
Qed.

Lemma SetNormal_oriented (h : HitRecord) (ray : Ray) (n : Vec3r) :
  hit_normal_ (SetNormal h ray n) = oriented_normal ray n.
Proof. reflexivity. Qed.

(** Orienting an already oriented normal against the same ray changes
    nothing. *)
Lemma oriented_normal_idem (ray : Ray) (n : Vec3r) :
  oriented_normal ray (oriented_normal ray n) = oriented_normal ray n.
Proof.
  unfold oriented_normal at 1.
  destruct (Rlt_dec _ _) as [H | H]; [| reflexivity].
  exfalso. pose proof (oriented_normal_front_facing ray n) as F.
  rewrite dot_comm, dot_vscale_l, dot_comm in F. lra.
Qed.

(** ** Sphere *)

(** [Sphere::Hit], rewritten over the reference discriminant and roots. *)
Lemma Sphere_Hit_unfold (this : Sphere) (ray : Ray) (tmin tmax : R)
  (hit_record : HitRecord) :
  Sphere_Hit this ray tmin tmax hit_record =
  if Rlt_dec (sphere_discriminant this ray) 0 then (false, hit_record)
  else if Rlt_b (sphere_smaller_root this ray) tmin
          || Rlt_b tmax (sphere_smaller_root this ray)
       then (false, hit_record)
       else (true, sphere_hit_record this ray (sphere_smaller_root this ray)).
Proof.
  unfold Sphere_Hit, sphere_smaller_root, sphere_root1, sphere_root2,
    sphere_hit_record.
  rewrite std_min_Rmin, dot_vscale_l, normalized_normalize.
  fold (sphere_oc this ray).
  replace (dot (dir_ ray) (sphere_oc this ray)
           * dot (dir_ ray) (sphere_oc this ray)
           - dot (dir_ ray) (dir_ ray)
             * (dot (sphere_oc this ray) (sphere_oc this ray)
                - radius_ this * radius_ this))
    with (sphere_discriminant this ray)
    by (unfold sphere_discriminant; ring).
  replace (-1 * dot (dir_ ray) (sphere_oc this ray))
    with (- dot (dir_ ray) (sphere_oc this ray)) by ring.
  reflexivity.
Qed.

(** With a non-zero direction and a non-negative discriminant, the two
    values are the roots of |O + tD - C|^2 = r^2, and the first is the
    smaller. *)
Lemma sphere_roots_solve (s : Sphere) (ray : Ray) (t : R) :
  dot (dir_ ray) (dir_ ray) <> 0 ->
  0 <= sphere_discriminant s ray ->
  t = sphere_root1 s ray \/ t = sphere_root2 s ray ->
  squaredNorm (Ray_At ray t -v center_ s)%vec = (radius_ s) ^ 2.
Proof.
  intros Hd Hdisc Ht.
  set (a := dot (dir_ ray) (dir_ ray)) in *.
  set (b := dot (dir_ ray) (sphere_oc s ray)).
  set (c := dot (sphere_oc s ray) (sphere_oc s ray) - radius_ s ^ 2).
  assert (Hsq : sqrt (sphere_discriminant s ray) ^ 2 = b ^ 2 - a * c).
  { rewrite <- Rsqr_pow2, Rsqr_sqrt by exact Hdisc. reflexivity. }
  assert (Hexp : squaredNorm (Ray_At ray t -v center_ s)%vec - radius_ s ^ 2
                 = a * t ^ 2 + 2 * b * t + c).
  { unfold a, b, c, sphere_oc, squaredNorm, Ray_At, dot, vadd, vsub, vscale.
    simpl. ring. }
  assert (Hq : a * t ^ 2 + 2 * b * t + c = 0).
  { assert (Hat : (a * t + b) ^ 2 = b ^ 2 - a * c).
    { rewrite <- Hsq.
      destruct Ht as [-> | ->]; unfold sphere_root1, sphere_root2;
        fold a b.
      - replace (a * ((- b - sqrt (sphere_discriminant s ray)) / a) + b)
          with (- sqrt (sphere_discriminant s ray)) by (field; exact Hd).
        ring.
      - replace (a * ((- b + sqrt (sphere_discriminant s ray)) / a) + b)
          with (sqrt (sphere_discriminant s ray)) by (field; exact Hd).
        reflexivity. }
    assert (Hmul : a * (a * t ^ 2 + 2 * b * t + c) = 0) by nra.
    apply Rmult_integral in Hmul. tauto. }
  lra.
Qed.

Lemma sphere_root1_le_root2 (s : Sphere) (ray : Ray) :
  0 <= dot (dir_ ray) (dir_ ray) ->
  sphere_root1 s ray <= sphere_root2 s ray.
Proof.
  intros Hd. unfold sphere_root1, sphere_root2.
  pose proof (sqrt_pos (sphere_discriminant s ray)) as Hs.
  destruct (Req_dec_T (dot (dir_ ray) (dir_ ray)) 0) as [-> | Hnz].
  - unfold Rdiv; rewrite Rinv_0; lra.
  - apply Rmult_le_compat_r; [| lra].
    apply Rlt_le, Rinv_0_lt_compat; lra.
Qed.

(** C2.  Sphere.Hit computes the discriminant (D.oc)^2 - (D.D)(oc.oc - r^2)
    with oc = O - C.  If it is negative Hit returns false and leaves the hit
    record unchanged.  Otherwise Hit takes the smaller of the two roots and
    returns true exactly when that root lies in [tmin, tmax]; a ray whose
    smaller root is below tmin is a miss even when the larger root is in
    range.  On acceptance the record holds rayT, the point at that
    parameter, the oriented normal normalize(point - center) and the sphere
    itself. *)
Theorem Sphere_Hit_spec (this : Sphere) (ray : Ray) (tmin tmax : R)
  (hit_record : HitRecord) :
  let disc := sphere_discriminant this ray in
  let t := sphere_smaller_root this ray in
  (disc < 0 -> Sphere_Hit this ray tmin tmax hit_record = (false, hit_record))
  /\ (0 <= disc ->
      (fst (Sphere_Hit this ray tmin tmax hit_record) = true
       <-> tmin <= t <= tmax))
  /\ (0 <= disc -> tmin <= t <= tmax ->
      Sphere_Hit this ray tmin tmax hit_record
      = (true, sphere_hit_record this ray t))
  /\ (0 <= disc -> t < tmin ->
      tmin <= sphere_larger_root this ray <= tmax ->
      Sphere_Hit this ray tmin tmax hit_record = (false, hit_record))
  /\ (fst (Sphere_Hit this ray tmin tmax hit_record) = false ->
      snd (Sphere_Hit this ray tmin tmax hit_record) = hit_record).
Proof.
  intros disc t. subst disc t. rewrite Sphere_Hit_unfold.
  destruct (Rlt_dec (sphere_discriminant this ray) 0) as [Hneg | Hnn].
  - repeat split; intros; simpl in *; try reflexivity; try lra;
      try discriminate.
  - destruct (Rlt_b (sphere_smaller_root this ray) tmin) eqn:Hlo;
      [apply Rlt_b_true in Hlo | apply Rlt_b_false in Hlo];
      (destruct (Rlt_b tmax (sphere_smaller_root this ray)) eqn:Hhi;
       [apply Rlt_b_true in Hhi | apply Rlt_b_false in Hhi]);
      simpl; repeat split; intros; simpl in *;
        try reflexivity; try lra; try discriminate.
Qed.

(** The sphere of radius 1 around (0,0,3) seen from the origin along +z:
    discriminant 1, roots 2 and 4. *)
Lemma example_ray_eq : example_ray = mkRay (vec3 0 0 0) (vec3 0 0 1).
Proof.
  unfold example_ray, Ray_new, norm, squaredNorm, dot, vdivs; simpl.
  replace (0 * 0 + 0 * 0 + 1 * 1) with 1 by ring.
  rewrite sqrt_1. f_equal. f_equal; field.
Qed.

Lemma example_sphere_discriminant (m : option Material) :
  sphere_discriminant (example_sphere_with m) example_ray = 1.
Proof.
  rewrite example_ray_eq.
  unfold sphere_discriminant, sphere_oc, dot, vsub; simpl. ring.
Qed.

Lemma example_sphere_smaller_root (m : option Material) :
  sphere_smaller_root (example_sphere_with m) example_ray = 2.
Proof.
  unfold sphere_smaller_root, sphere_root1, sphere_root2.
  rewrite example_sphere_discriminant, sqrt_1, example_ray_eq.
  unfold sphere_oc, dot, vsub; simpl.
  rewrite Rmin_left; field_simplify; lra.
Qed.

Lemma Sphere_Hit_spec_witness :
  0 <= sphere_discriminant example_sphere example_ray
  /\ 0 <= sphere_smaller_root example_sphere example_ray <= 10
  /\ Sphere_Hit example_sphere example_ray 0 10 HitRecord_empty
     = (true,
        sphere_hit_record example_sphere example_ray
          (sphere_smaller_root example_sphere example_ray)).
Proof.
  assert (Hd : 0 <= sphere_discriminant example_sphere example_ray)
    by (unfold example_sphere; rewrite example_sphere_discriminant; lra).
  assert (Ht : 0 <= sphere_smaller_root example_sphere example_ray <= 10)
    by (unfold example_sphere; rewrite example_sphere_smaller_root; lra).
  split; [exact Hd | split; [exact Ht |]].
  exact (proj1 (proj2 (proj2
           (Sphere_Hit_spec example_sphere example_ray 0 10 HitRecord_empty)))
         Hd Ht).
Defined.

(** [Ray::Ray] normalizes a non-zero direction. *)
Lemma Ray_new_unit (origin dir : Vec3r) :
  0 < squaredNorm dir -> norm (dir_ (Ray_new origin dir)) = 1.
Proof.
  intros Hpos. apply norm_of_squaredNorm_1.
  exact (normalize_unit dir Hpos).
Qed.

(** X3.  A ray of unit direction through the centre of a sphere, from outside:
    the hit is at the distance from the origin to the near surface point,
    and the hit point lies at distance [radius] from the centre. *)
Lemma Sphere_Hit_through_center (this : Sphere) (ray : Ray) (k tmax : R)
  (h : HitRecord) :
  dot (dir_ ray) (dir_ ray) = 1 ->
  0 < radius_ this <= k ->
  center_ this = Ray_At ray k ->
  k - radius_ this <= tmax ->
  Sphere_Hit this ray 0 tmax h
  = (true, sphere_hit_record this ray (k - radius_ this))
  /\ norm (Ray_At ray (k - radius_ this) -v center_ this)%vec
     = radius_ this.
Proof.
  intros Hd Hr Hc Hmax.
  assert (Hdisc : sphere_discriminant this ray = radius_ this ^ 2).
  { unfold sphere_discriminant, sphere_oc. rewrite Hc.
    transitivity (dot (dir_ ray) (dir_ ray) * radius_ this ^ 2);
      [| rewrite Hd; ring].
    unfold Ray_At, dot, vadd, vsub, vscale; simpl. ring. }
  assert (Hsqrt : sqrt (sphere_discriminant this ray) = radius_ this).
  { rewrite Hdisc. replace (radius_ this ^ 2)
      with (radius_ this * radius_ this) by ring.
    apply sqrt_square. lra. }
  assert (Hdoc : dot (dir_ ray) (sphere_oc this ray) = - k).
  { unfold sphere_oc. rewrite Hc.
    transitivity (- k * dot (dir_ ray) (dir_ ray)); [| rewrite Hd; ring].
    unfold Ray_At, dot, vadd, vsub, vscale; simpl. ring. }
  assert (Hroot : sphere_smaller_root this ray = k - radius_ this).
  { unfold sphere_smaller_root, sphere_root1, sphere_root2.
    rewrite Hsqrt, Hdoc, Hd. rewrite Rmin_left; [field | ].
    unfold Rdiv. lra. }
  split.
  - rewrite Sphere_Hit_unfold.
    destruct (Rlt_dec _ 0) as [Hneg | _]; [rewrite Hdisc in Hneg; nra |].
    rewrite Hroot.
    rewrite (proj2 (Rlt_b_false (k - radius_ this) 0)),
      (proj2 (Rlt_b_false tmax (k - radius_ this))) by lra.
    reflexivity.
  - unfold norm.
    rewrite (sphere_roots_solve this ray (k - radius_ this)).
    + replace (radius_ this ^ 2) with (radius_ this * radius_ this) by ring.
      apply sqrt_square. lra.
    + rewrite Hd. lra.
    + rewrite Hdisc. nra.
    + left. rewrite <- Hroot. unfold sphere_smaller_root.
      apply Rmin_left. apply sphere_root1_le_root2. rewrite Hd. lra.
Qed.

(** ** Triangle *)

Lemma vscale_m1 (a : Vec3r) : (-1 *v a)%vec = vneg a.
Proof. apply vec3_eq; simpl; ring. Qed.

Lemma Ray_At_comm (ray : Ray) (t : R) :
  (t *v dir_ ray +v origin_ ray)%vec = Ray_At ray t.
Proof. apply vadd_comm. Qed.

Lemma dot_vdivs_l (a b : Vec3r) (k : R) : dot (vdivs a k) b = dot a b / k.
Proof. unfold dot, vdivs; simpl; unfold Rdiv; ring. Qed.

(** The constructor establishes the invariant of the normal. *)
Lemma Triangle_new_invariant (p0 p1 p2 : Vec3r) (name : string) :
  Triangle_invariant (Triangle_new p0 p1 p2 name).
Proof. reflexivity. Qed.

Lemma Triangle_ComputeNormal_invariant (t : Triangle) :
  Triangle_invariant (Triangle_ComputeNormal t).
Proof. reflexivity. Qed.

(** Under the invariant, a ray that is not perpendicular to the stored
    normal meets an invertible system. *)
Lemma triangle_system_invertible (t : Triangle) (ray : Ray) :
  Triangle_invariant t ->
  dot (normal_ t) (dir_ ray) <> 0 ->
  det (triangle_system t ray) <> 0.
Proof.
  unfold Triangle_invariant, triangle_normal_of, normalize.
  intros Hinv Hdot Hdet. apply Hdot. rewrite Hinv.
  rewrite dot_vdivs_l.
  replace (dot (cross (point1_ t -v point0_ t) (point2_ t -v point0_ t))
               (dir_ ray)) with 0; [unfold Rdiv; ring |].
  unfold triangle_system, det in Hdet. simpl in Hdet.
  unfold dot, cross, vneg in *. simpl in *. lra.
Qed.

Section TriangleProperties.
Context {E : Externals}.

(** [Triangle::Hit], rewritten over the reference solution and edge
    tests. *)
Lemma Triangle_Hit_unfold (this : Triangle) (ray : Ray) (tmin tmax : R)
  (hit_record : HitRecord) :
  let t := vz (triangle_solution this ray) in
  let x := Ray_At ray t in
  Triangle_Hit this ray tmin tmax hit_record =
  if Req_b (dot (normal_ this) (dir_ ray)) 0 then (false, hit_record)
  else if Rlt_b t tmin || Rlt_b tmax t then (false, hit_record)
  else if Rlt_b (edge_test (point0_ this) (point1_ this) x (normal_ this)) 0
  then (false, hit_record)
  else if Rlt_b (edge_test (point1_ this) (point2_ this) x (normal_ this)) 0
  then (false, hit_record)
  else if Rlt_b (edge_test (point2_ this) (point0_ this) x (normal_ this)) 0
  then (false, hit_record)
  else (true, triangle_hit_record this ray t).
Proof.
  intros t x. subst t x.
  unfold Triangle_Hit, RayTriangleHit, triangle_solution, triangle_system,
    triangle_rhs, edge_test, triangle_hit_record.
  rewrite vscale_m1.
  destruct (Req_b _ 0); [reflexivity |].
  destruct (_ || _); [reflexivity |].
  rewrite Ray_At_comm. reflexivity.
Qed.

(** C3.  Triangle.Hit returns false when the ray direction is perpendicular
    to the stored face normal.  Otherwise it solves
    [u v -D] [beta gamma t]^T = O - p0, rejects a t outside [tmin, tmax],
    and accepts exactly when the three half-plane edge tests at
    x = O + tD are all >= 0.  On acceptance the record holds rayT, the hit
    point, the oriented face normal and the triangle itself; on a miss the
    record is unchanged. *)
Theorem Triangle_Hit_spec (this : Triangle) (ray : Ray) (tmin tmax : R)
  (hit_record : HitRecord) :
  let sol := triangle_solution this ray in
  let t := vz sol in
  (dot (normal_ this) (dir_ ray) = 0 ->
   Triangle_Hit this ray tmin tmax hit_record = (false, hit_record))
  /\ (det (triangle_system this ray) <> 0 ->
      mulMV (triangle_system this ray) sol = triangle_rhs this ray)
  /\ (Triangle_invariant this -> dot (normal_ this) (dir_ ray) <> 0 ->
      mulMV (triangle_system this ray) sol = triangle_rhs this ray)
  /\ (dot (normal_ this) (dir_ ray) <> 0 -> t < tmin \/ tmax < t ->
      Triangle_Hit this ray tmin tmax hit_record = (false, hit_record))
  /\ (dot (normal_ this) (dir_ ray) <> 0 -> tmin <= t <= tmax ->
      (fst (Triangle_Hit this ray tmin tmax hit_record) = true
       <-> triangle_inside this (Ray_At ray t)))
  /\ (fst (Triangle_Hit this ray tmin tmax hit_record) = true ->
      Triangle_Hit this ray tmin tmax hit_record
      = (true, triangle_hit_record this ray t))
  /\ (fst (Triangle_Hit this ray tmin tmax hit_record) = false ->
      snd (Triangle_Hit this ray tmin tmax hit_record) = hit_record).
Proof.
  intros sol t. subst sol t.
  rewrite Triangle_Hit_unfold. cbv zeta. unfold triangle_inside.
  split; [| split; [| split]].
  { intros H. apply Req_b_true in H. rewrite H. reflexivity. }
  { intros H. apply colPivHouseholderQr_solve_correct, H. }
  { intros Hinv H.
    apply colPivHouseholderQr_solve_correct, triangle_system_invertible;
      assumption. }
  destruct (Req_b (dot (normal_ this) (dir_ ray)) 0) eqn:Hperp;
    [apply Req_b_true in Hperp | apply Req_b_false in Hperp].
  { repeat split; intros; simpl in *; try reflexivity; try discriminate;
      try contradiction. }
  destruct (Rlt_b (vz (triangle_solution this ray)) tmin) eqn:Hlo;
    [apply Rlt_b_true in Hlo | apply Rlt_b_false in Hlo];
    (destruct (Rlt_b tmax (vz (triangle_solution this ray))) eqn:Hhi;
     [apply Rlt_b_true in Hhi | apply Rlt_b_false in Hhi]);
    simpl;
    try (repeat split; intros; simpl in *; try reflexivity;
         try discriminate; try lra; fail).
  destruct (Rlt_b (edge_test (point0_ this) (point1_ this) _ _) 0) eqn:He0;
    [apply Rlt_b_true in He0 | apply Rlt_b_false in He0];
    [repeat split; intros; simpl in *; try reflexivity;
     try discriminate; try lra |].
  destruct (Rlt_b (edge_test (point1_ this) (point2_ this) _ _) 0) eqn:He1;
    [apply Rlt_b_true in He1 | apply Rlt_b_false in He1];
    [repeat split; intros; simpl in *; try reflexivity;
     try discriminate; try lra |].
  destruct (Rlt_b (edge_test (point2_ this) (point0_ this) _ _) 0) eqn:He2;
    [apply Rlt_b_true in He2 | apply Rlt_b_false in He2];
    repeat split; intros; simpl in *; try reflexivity;
      try discriminate; try lra.
Qed.

End TriangleProperties.

(** The triangle (0,0,0), (1,0,0), (0,1,0) and the ray from (1/4,1/4,1)
    along -z: the hit is at t = 1, inside the triangle. *)
Lemma example_ray_down_eq :
  example_ray_down = mkRay (vec3 (1 / 4) (1 / 4) 1) (vec3 0 0 (-1)).
Proof.
  unfold example_ray_down, Ray_new, norm, squaredNorm, dot, vdivs; simpl.
  replace (0 * 0 + 0 * 0 + -1 * -1) with 1 by ring.
  rewrite sqrt_1. f_equal. f_equal; field.
Qed.

Lemma example_triangle_eq :
  example_triangle
  = mkTriangle (vec3 0 0 0) (vec3 1 0 0) (vec3 0 1 0) (vec3 0 0 1) "tri" None.
Proof.
  unfold example_triangle, Triangle_new, Triangle_ComputeNormal.
  cbn [point0_ point1_ point2_ triangle_name_ triangle_material_].
  assert (Hn : norm (cross (vec3 1 0 0 -v vec3 0 0 0)
                           (vec3 0 1 0 -v vec3 0 0 0)) = 1).
  { unfold norm. transitivity (sqrt 1); [f_equal | apply sqrt_1].
    unfold squaredNorm, dot, cross, vsub; simpl. ring. }
  rewrite Hn. f_equal. apply vec3_eq; simpl; field.
Qed.

Section TriangleExample.
#[local] Existing Instance reference_externals.

Lemma example_triangle_solution :
  triangle_solution example_triangle example_ray_down
  = vec3 (1 / 4) (1 / 4) 1.
Proof.
  rewrite example_triangle_eq, example_ray_down_eq.
  unfold triangle_solution, triangle_system, triangle_rhs; simpl.
  unfold cramer_solve, det, dot, cross, vsub, vneg; simpl.
  f_equal; field.
Qed.

Lemma example_triangle_inside :
  triangle_inside example_triangle (Ray_At example_ray_down 1).
Proof.
  rewrite example_triangle_eq, example_ray_down_eq.
  unfold triangle_inside, edge_test, Ray_At, dot, cross, vadd, vsub, vscale;
    simpl.
  repeat split; lra.
Qed.

Lemma Triangle_Hit_spec_witness :
  dot (normal_ example_triangle) (dir_ example_ray_down) <> 0
  /\ 0 <= vz (triangle_solution example_triangle example_ray_down) <= 10
  /\ (fst (Triangle_Hit example_triangle example_ray_down 0 10
                        HitRecord_empty) = true
      <-> triangle_inside example_triangle
            (Ray_At example_ray_down
               (vz (triangle_solution example_triangle example_ray_down)))).
Proof.
  assert (Hn : dot (normal_ example_triangle) (dir_ example_ray_down) <> 0).
  { rewrite example_triangle_eq, example_ray_down_eq.
    unfold dot; simpl. lra. }
  assert (Ht : 0 <= vz (triangle_solution example_triangle example_ray_down)
               <= 10).
  { rewrite example_triangle_solution; simpl. lra. }
  split; [exact Hn | split; [exact Ht |]].
  exact (proj1 (proj2 (proj2 (proj2 (proj2
           (Triangle_Hit_spec example_triangle example_ray_down 0 10
                              HitRecord_empty)))))
         Hn Ht).
Defined.

(** The ray aimed at the triangle from (1/4,1/4,1) hits it at t = 1. *)
Example example_triangle_hit :
  Triangle_Hit example_triangle example_ray_down 0 10 HitRecord_empty
  = (true, triangle_hit_record example_triangle example_ray_down 1).
Proof.
  pose proof example_triangle_inside as (H0 & H1 & H2).
  pose proof (Triangle_Hit_unfold example_triangle example_ray_down 0 10
                                  HitRecord_empty) as Hu.
  cbv zeta in Hu. rewrite example_triangle_solution in Hu. simpl vz in Hu.
  rewrite Hu.
  rewrite (proj2 (Req_b_false _ _)).
  2:{ rewrite example_triangle_eq, example_ray_down_eq.
      unfold dot; simpl. lra. }
  rewrite (proj2 (Rlt_b_false 1 0)), (proj2 (Rlt_b_false 10 1)) by lra.
  rewrite !(proj2 (Rlt_b_false _ 0)) by assumption.
  reflexivity.
Qed.

End TriangleExample.

(** ** SurfaceList *)

Lemma keep_nearer_copies (ray : Ray) (stored h : HitRecord) :
  ray_t_ h < ray_t_ stored -> keep_nearer ray stored h = copied_record ray h.
Proof. unfold keep_nearer; destruct (Rlt_dec _ _); intros; [easy | lra]. Qed.

Lemma keep_nearer_keeps (ray : Ray) (stored h : HitRecord) :
  ray_t_ stored <= ray_t_ h -> keep_nearer ray stored h = stored.
Proof. unfold keep_nearer; destruct (Rlt_dec _ _); intros; [lra | easy]. Qed.

(** The loop returns the disjunction of the children's results and folds
    [keep_nearer] over the records of the children that hit. *)
Lemma SurfaceList_Hit_loop_fold
  (child_hit : Surface -> Ray -> R -> R -> HitRecord -> bool * HitRecord)
  (ray : Ray) (tmin tmax : R) (surfaces : list Surface) :
  forall (hitAny : bool) (hit_record bestRecord : HitRecord),
    SurfaceList_Hit_loop child_hit ray tmin tmax surfaces hitAny hit_record
                         bestRecord
    = (hitAny
       || existsb fst
            (child_results child_hit ray tmin tmax surfaces bestRecord),
       fold_left (keep_nearer ray)
         (accepted_hits
            (child_results child_hit ray tmin tmax surfaces bestRecord))
         hit_record).
Proof.
  induction surfaces as [| surface rest IH]; intros hitAny hit_record best.
  - simpl. rewrite orb_false_r. reflexivity.
  - cbn [SurfaceList_Hit_loop child_results existsb].
    destruct (child_hit surface ray tmin tmax best) as [hit best'] eqn:Hc.
    cbn [fst snd]. unfold accepted_hits. cbn [filter fst].
    destruct hit; cbn [map fold_left snd].
    + unfold keep_nearer at 2.
      destruct (Rlt_dec (ray_t_ best') (ray_t_ hit_record));
        rewrite IH; rewrite orb_true_r; reflexivity.
    + rewrite IH. reflexivity.
Qed.

Lemma nearer_or_not (x : R) (hs : list HitRecord) :
  (forall h, In h hs -> x <= ray_t_ h)
  \/ (exists h, In h hs /\ ray_t_ h < x).
Proof.
  induction hs as [| h0 rest IH].
  - left; intros h [].
  - destruct (Rlt_dec (ray_t_ h0) x) as [Hlt | Hge].
    + right; exists h0; split; [left; reflexivity | exact Hlt].
    + destruct IH as [Hall | (h & Hin & Hlt)].
      * left; intros h [<- | Hin]; [lra | apply Hall, Hin].
      * right; exists h; split; [right; exact Hin | exact Hlt].
Qed.

Lemma fold_keep_nearer_none (ray : Ray) (hs : list HitRecord) :
  forall stored,
    (forall h, In h hs -> ray_t_ stored <= ray_t_ h) ->
    fold_left (keep_nearer ray) hs stored = stored.
Proof.
  induction hs as [| h0 rest IH]; intros stored Hall; [reflexivity |].
  simpl. rewrite keep_nearer_keeps by (apply Hall; left; reflexivity).
  apply IH. intros h Hin; apply Hall; right; exact Hin.
Qed.

(** When some record is nearer than the stored one, the fold ends with the
    copy of the first record of smallest rayT. *)
Lemma fold_keep_nearer_first_min (ray : Ray) (hs : list HitRecord) :
  forall stored,
    (exists h, In h hs /\ ray_t_ h < ray_t_ stored) ->
    exists pre h post,
      hs = pre ++ h :: post
      /\ ray_t_ h < ray_t_ stored
      /\ (forall h', In h' pre -> ray_t_ h < ray_t_ h')
      /\ (forall h', In h' post -> ray_t_ h <= ray_t_ h')
      /\ fold_left (keep_nearer ray) hs stored = copied_record ray h.
Proof.
  induction hs as [| h0 rest IH]; intros stored (h & Hin & Hlt).
  - destruct Hin.
  - cbn [fold_left].
    destruct (Rlt_dec (ray_t_ h0) (ray_t_ stored)) as [H0 | H0].
    + rewrite keep_nearer_copies by exact H0.
      destruct (nearer_or_not (ray_t_ h0) rest) as [Hall | Hex].
      * exists [], h0, rest. repeat split; try easy.
        apply fold_keep_nearer_none. exact Hall.
      * destruct (IH (copied_record ray h0) Hex)
          as (pre & m & post & -> & Hm & Hpre & Hpost & Hfold).
        cbn [copied_record ray_t_] in Hm.
        exists (h0 :: pre), m, post. repeat split; try easy; try lra.
        intros h' [<- | Hin']; [exact Hm | apply Hpre, Hin'].
    + rewrite keep_nearer_keeps by lra.
      destruct Hin as [<- | Hin]; [lra |].
      destruct (IH stored (ex_intro _ h (conj Hin Hlt)))
        as (pre & m & post & -> & Hm & Hpre & Hpost & Hfold).
      exists (h0 :: pre), m, post. repeat split; try easy.
      intros h' [<- | Hin']; [lra | apply Hpre, Hin'].
Qed.

Section SurfaceListProperties.
Context {E : Externals}.
Variable child_hit :
  Surface -> Ray -> R -> R -> HitRecord -> bool * HitRecord.

(** [SurfaceList::Hit] over the children's results. *)
Lemma SurfaceList_Hit_fold (surfaces : list Surface) (ray : Ray)
  (tmin tmax : R) (hit_record : HitRecord) :
  let results :=
    child_results child_hit ray tmin tmax surfaces HitRecord_default in
  SurfaceList_Hit child_hit surfaces ray tmin tmax hit_record
  = (existsb fst results,
     fold_left (keep_nearer ray) (accepted_hits results)
               (SetRayT hit_record tmax)).
Proof.
  intros results. unfold SurfaceList_Hit.
  rewrite SurfaceList_Hit_loop_fold. reflexivity.
Qed.


(** C10.  SurfaceList.Hit writes tmax into the rayT of the output record
    before testing any child.  When no child reports a hit it returns false
    and the caller's record comes back with rayT = tmax.  A child's record
    is copied into the output record only when its rayT is strictly smaller
    than the rayT stored there. *)
Theorem SurfaceList_Hit_frame (surfaces : list Surface) (ray : Ray)
  (tmin tmax : R) (hit_record : HitRecord) :
  let results :=
    child_results child_hit ray tmin tmax surfaces HitRecord_default in
  SurfaceList_Hit child_hit surfaces ray tmin tmax hit_record
  = SurfaceList_Hit_loop child_hit ray tmin tmax surfaces false
      (SetRayT hit_record tmax) HitRecord_default
  /\ ((forall r, In r results -> fst r = false) ->
      SurfaceList_Hit child_hit surfaces ray tmin tmax hit_record
      = (false, SetRayT hit_record tmax)
      /\ ray_t_ (snd (SurfaceList_Hit child_hit surfaces ray tmin tmax
                                      hit_record)) = tmax)
  /\ snd (SurfaceList_Hit child_hit surfaces ray tmin tmax hit_record)
     = fold_left (keep_nearer ray) (accepted_hits results)
                 (SetRayT hit_record tmax)
  /\ (forall stored h,
        keep_nearer ray stored h <> stored -> ray_t_ h < ray_t_ stored)
  /\ (forall surface rest hitAny stored bestRecord,
        fst (child_hit surface ray tmin tmax bestRecord) = true ->
        ray_t_ stored
        <= ray_t_ (snd (child_hit surface ray tmin tmax bestRecord)) ->
        SurfaceList_Hit_loop child_hit ray tmin tmax (surface :: rest)
                             hitAny stored bestRecord
        = SurfaceList_Hit_loop child_hit ray tmin tmax rest true stored
            (snd (child_hit surface ray tmin tmax bestRecord))).
Proof.
  intros results. split; [reflexivity |].
  rewrite SurfaceList_Hit_fold. fold results. cbn [snd].
  split; [| split; [reflexivity | split]].
  - intros Hnone.
    assert (Hex : existsb fst results = false).
    { destruct (existsb fst results) eqn:Hex; [| reflexivity].
      apply existsb_exists in Hex. destruct Hex as (r & Hin & Hr).
      rewrite (Hnone r Hin) in Hr. discriminate. }
    assert (Hacc : accepted_hits results = []).
    { unfold accepted_hits.
      replace (filter fst results) with (@nil (bool * HitRecord));
        [reflexivity |].
      symmetry. clear Hex. induction results as [| r rs IH];
        [reflexivity |].
      simpl. rewrite (Hnone r (or_introl eq_refl)).
      apply IH. intros r' Hin. apply Hnone. right. exact Hin. }
    rewrite Hex, Hacc. split; reflexivity.
  - intros stored h Hneq. unfold keep_nearer in Hneq.
    destruct (Rlt_dec (ray_t_ h) (ray_t_ stored)); [assumption |].
    contradiction Hneq; reflexivity.
  - intros surface rest hitAny stored best Hhit Hge.
    cbn [SurfaceList_Hit_loop].
    destruct (child_hit surface ray tmin tmax best) as [hit best'].
    cbn [fst snd] in *. subst hit.
    destruct (Rlt_dec (ray_t_ best') (ray_t_ stored)); [lra | reflexivity].
Qed.

End SurfaceListProperties.

Lemma example_ray_x_eq : example_ray_x = mkRay (vec3 0 0 0) (vec3 1 0 0).
Proof.
  unfold example_ray_x, Ray_new, norm, squaredNorm, dot, vdivs; simpl.
  replace (1 * 1 + 0 * 0 + 0 * 0) with 1 by ring.
  rewrite sqrt_1. f_equal. f_equal; field.
Qed.

(** The ray along +x misses the example sphere. *)
Lemma example_sphere_miss (tmin tmax : R) (h : HitRecord) :
  Sphere_Hit example_sphere example_ray_x tmin tmax h = (false, h).
Proof.
  rewrite Sphere_Hit_unfold.
  destruct (Rlt_dec _ 0) as [_ | Hnn]; [reflexivity |].
  exfalso; apply Hnn. rewrite example_ray_x_eq. unfold example_sphere.
  unfold sphere_discriminant, sphere_oc, dot, vsub; simpl. lra.
Qed.

(** The example sphere is hit at t = 2, at the point (0,0,2), with the
    normal (0,0,-1). *)
Lemma example_sphere_hit_record (m : option Material) :
  sphere_hit_record (example_sphere_with m) example_ray 2
  = mkHitRecord 2 (vec3 0 0 2) (vec3 0 0 (-1))
                (Some (SphereS (example_sphere_with m))).
Proof.
  unfold sphere_hit_record. rewrite example_ray_eq.
  assert (Hp : Ray_At (mkRay (vec3 0 0 0) (vec3 0 0 1)) 2 = vec3 0 0 2)
    by (apply vec3_eq; simpl; ring).
  rewrite Hp.
  assert (Hd : (vec3 0 0 2 -v center_ (example_sphere_with m))%vec
               = vec3 0 0 (-1))
    by (apply vec3_eq; simpl; ring).
  rewrite Hd.
  assert (Hn : normalize (vec3 0 0 (-1)) = vec3 0 0 (-1)).
  { unfold normalize, norm.
    replace (squaredNorm (vec3 0 0 (-1))) with 1
      by (unfold squaredNorm, dot; simpl; ring).
    rewrite sqrt_1. apply vec3_eq; simpl; field. }
  rewrite Hn. unfold oriented_normal.
  destruct (Rlt_dec _ _) as [Hlt | _]; [| reflexivity].
  unfold dot in Hlt; simpl in Hlt. lra.
Qed.

Lemma example_sphere_hit (m : option Material) (tmin tmax : R)
  (h : HitRecord) :
  tmin <= 2 <= tmax ->
  Sphere_Hit (example_sphere_with m) example_ray tmin tmax h
  = (true,
     mkHitRecord 2 (vec3 0 0 2) (vec3 0 0 (-1))
                 (Some (SphereS (example_sphere_with m)))).
Proof.
  intros Hrange. rewrite Sphere_Hit_unfold.
  destruct (Rlt_dec _ 0) as [Hneg | _];
    [rewrite example_sphere_discriminant in Hneg; lra |].
  rewrite example_sphere_smaller_root.
  rewrite (proj2 (Rlt_b_false 2 tmin)), (proj2 (Rlt_b_false tmax 2)) by lra.
  simpl. rewrite example_sphere_hit_record. reflexivity.
Qed.

(** A list whose only child is hit at exactly rayT = tmax. *)
Lemma example_scene_hit_at_tmax {E : Externals} :
  Surface_Hit example_scene example_ray 0 2 HitRecord_empty
  = (true, mkHitRecord 2 vzero vzero None).
Proof.
  unfold example_scene, example_sphere. cbn [Surface_Hit].
  rewrite SurfaceList_Hit_fold. cbn [child_results].
  cbn [Surface_Hit]. rewrite example_sphere_hit by lra.
  unfold accepted_hits. cbn [existsb filter map fst snd fold_left orb].
  rewrite keep_nearer_keeps by (simpl; lra).
  reflexivity.
Qed.

Section SurfaceListExamples.
Context {E : Externals}.

(** C1.  A list whose only child is hit at exactly rayT = tmax: the child
    reports the hit and fills its record, and the list returns true, but
    the caller's record receives nothing except rayT = tmax: its point,
    normal and surface are the ones it had before the call. *)
Theorem SurfaceList_Hit_at_tmax_not_recorded :
  Surface_Hit (SphereS example_sphere) example_ray 0 2 HitRecord_default
  = (true,
     mkHitRecord 2 (vec3 0 0 2) (vec3 0 0 (-1))
                 (Some (SphereS example_sphere)))
  /\ Surface_Hit example_scene example_ray 0 2 HitRecord_empty
     = (true, mkHitRecord 2 vzero vzero None).
Proof.
  split.
  - unfold example_sphere. simpl. apply example_sphere_hit. lra.
  - apply example_scene_hit_at_tmax.
Qed.

(** C4.  A successful Hit whose normal is not of unit length: the list whose
    only child is hit at exactly rayT = tmax returns true and leaves the
    caller's normal, here (0,0,0), in the record. *)
Theorem SurfaceList_Hit_at_tmax_normal_not_unit :
  fst (Surface_Hit example_scene example_ray 0 2 HitRecord_empty) = true
  /\ norm (hit_normal_
             (snd (Surface_Hit example_scene example_ray 0 2
                               HitRecord_empty))) = 0.
Proof.
  rewrite example_scene_hit_at_tmax. split; [reflexivity |].
  cbn [snd hit_normal_]. unfold norm.
  replace (squaredNorm vzero) with 0
    by (unfold squaredNorm, dot; simpl; ring).
  apply sqrt_0.
Qed.

End SurfaceListExamples.

Section SurfaceListWitness.
#[local] Existing Instance reference_externals.

Lemma SurfaceList_Hit_frame_witness :
  (forall r,
      In r (child_results Surface_Hit example_ray_x 0 10
              [SphereS example_sphere] HitRecord_default) ->
      fst r = false)
  /\ SurfaceList_Hit Surface_Hit [SphereS example_sphere] example_ray_x 0 10
                     HitRecord_empty
     = (false, SetRayT HitRecord_empty 10).
Proof.
  assert (Hnone : forall r,
             In r (child_results Surface_Hit example_ray_x 0 10
                     [SphereS example_sphere] HitRecord_default) ->
             fst r = false).
  { intros r [<- | []]. cbn [Surface_Hit].
    rewrite example_sphere_miss. reflexivity. }
  split; [exact Hnone |].
  exact (proj1 (proj1 (proj2
           (SurfaceList_Hit_frame Surface_Hit [SphereS example_sphere]
              example_ray_x 0 10 HitRecord_empty)) Hnone)).
Defined.

End SurfaceListWitness.

(** ** The stored normal of a triangle *)

Lemma Triangle_SetPoints_normal (t : Triangle) (p0 p1 p2 : Vec3r) :
  Triangle_GetNormal (Triangle_SetPoints t p0 p1 p2) = Triangle_GetNormal t.
Proof. reflexivity. Qed.

(** C8.  After SetPoints the stored normal is the one computed from the
    previous points: the triangle (0,0,0), (1,0,0), (0,1,0), moved to
    (0,0,0), (0,1,0), (0,0,1), keeps the normal (0,0,1) while the
    normalized cross product of its new edges is (1,0,0). *)
Theorem Triangle_SetPoints_stale_normal :
  let t :=
    Triangle_SetPoints example_triangle (vec3 0 0 0) (vec3 0 1 0)
                       (vec3 0 0 1) in
  Triangle_GetNormal t = vec3 0 0 1
  /\ triangle_normal_of (point0_ t) (point1_ t) (point2_ t) = vec3 1 0 0
  /\ ~ Triangle_invariant t.
Proof.
  cbv zeta.
  assert (Hold : Triangle_GetNormal
                   (Triangle_SetPoints example_triangle (vec3 0 0 0)
                      (vec3 0 1 0) (vec3 0 0 1)) = vec3 0 0 1).
  { rewrite Triangle_SetPoints_normal, example_triangle_eq. reflexivity. }
  assert (Hnew : triangle_normal_of (vec3 0 0 0) (vec3 0 1 0) (vec3 0 0 1)
                 = vec3 1 0 0).
  { unfold triangle_normal_of, normalize.
    assert (Hn : norm (cross (vec3 0 1 0 -v vec3 0 0 0)
                             (vec3 0 0 1 -v vec3 0 0 0)) = 1).
    { unfold norm. transitivity (sqrt 1); [f_equal | apply sqrt_1].
      unfold squaredNorm, dot, cross, vsub; simpl. ring. }
    rewrite Hn. apply vec3_eq; simpl; field. }
  split; [exact Hold | split; [exact Hnew |]].
  unfold Triangle_invariant. cbn [Triangle_SetPoints point0_ point1_ point2_].
  rewrite Hnew. unfold Triangle_GetNormal in Hold.
  cbn [Triangle_SetPoints normal_] in *. rewrite Hold.
  intros H. apply (f_equal vx) in H. simpl in H. lra.
Qed.

(** ** Shading *)

Lemma default_name_nonempty (name fallback : string) :
  name <> ""%string -> default_name name fallback = name.
Proof. destruct name; [congruence | reflexivity]. Qed.

Lemma default_name_empty (fallback : string) :
  default_name "" fallback = fallback.
Proof. reflexivity. Qed.

Lemma PhongMaterial_new_name (a d s : Vec3r) (sh : R) (mi : Vec3r)
  (name : string) :
  pm_name_ (PhongMaterial_new a d s sh mi name)
  = default_name name "PhongMaterial".
Proof. reflexivity. Qed.

Lemma PhongMaterial_named_name (init : PhongMaterial) (name : string) :
  pm_name_ (PhongMaterial_named init name)
  = default_name name "PhongMaterial".
Proof. reflexivity. Qed.

(** A hit whose surface carries the Phong material [m] is compatible
    exactly when the name of [m] is "PhongMaterial". *)
Lemma compatible_material_Phong (h : HitRecord) (surface : Surface)
  (m : PhongMaterial) :
  surface_ h = Some surface ->
  Surface_GetMaterial surface = Some (Phong m) ->
  compatible_material (surface_ h)
  = if String.eqb (pm_name_ m) "PhongMaterial" then Some m else None.
Proof.
  intros Hs Hm. unfold compatible_material. rewrite Hs, Hm. reflexivity.
Qed.

Lemma AmbientLight_Illuminate_compatible (this : AmbientLight)
  (h : HitRecord) (view_vec : Vec3r) (m : PhongMaterial) :
  compatible_material (surface_ h) = Some m ->
  AmbientLight_Illuminate this h view_vec
  = cwiseProduct (light_ambient_ this) (ambient_ m).
Proof.
  unfold compatible_material, AmbientLight_Illuminate.
  destruct (surface_ h) as [s |]; [| discriminate].
  destruct (dynamic_pointer_cast_PhongMaterial _) as [m' |]; [| discriminate].
  destruct (String.eqb _ _); [| discriminate].
  intros [= ->]. reflexivity.
Qed.

Lemma AmbientLight_Illuminate_incompatible (this : AmbientLight)
  (h : HitRecord) (view_vec : Vec3r) :
  compatible_material (surface_ h) = None ->
  AmbientLight_Illuminate this h view_vec = vec3 0 0 0.
Proof.
  unfold compatible_material, AmbientLight_Illuminate.
  destruct (surface_ h) as [s |]; [| reflexivity].
  destruct (dynamic_pointer_cast_PhongMaterial _) as [m' |]; [| reflexivity].
  destruct (String.eqb _ _); [discriminate | reflexivity].
Qed.

Lemma fold_left_vadd {A : Type} (f : A -> Vec3r) (xs : list A) :
  forall c,
    fold_left (fun ray_color x => (ray_color +v f x)%vec) xs c
    = (c +v sum_colors (map f xs))%vec.
Proof.
  induction xs as [| x xs IH]; intros c; simpl.
  - apply vec3_eq; simpl; ring.
  - rewrite IH, vadd_assoc. reflexivity.
Qed.

Section ShadingProperties.
Context {E : Externals}.

Lemma PhongMaterial_Evaluate_response (this : PhongMaterial)
  (h : HitRecord) (light_vec view_vec : Vec3r) :
  PhongMaterial_Evaluate this h light_vec view_vec
  = blinn_phong_response this (hit_normal_ h) light_vec view_vec.
Proof.
  unfold PhongMaterial_Evaluate, blinn_phong_response.
  rewrite normalized_normalize, std_max_Rmax. reflexivity.
Qed.

Lemma PointLight_Illuminate_compatible (this : PointLight) (h : HitRecord)
  (view_vec : Vec3r) (m : PhongMaterial) :
  compatible_material (surface_ h) = Some m ->
  PointLight_Illuminate this h view_vec
  = point_light_radiance this m h view_vec.
Proof.
  unfold compatible_material, PointLight_Illuminate.
  destruct (surface_ h) as [s |]; [| discriminate].
  destruct (dynamic_pointer_cast_PhongMaterial _) as [m' |]; [| discriminate].
  destruct (String.eqb _ _); [| discriminate].
  intros [= ->]. cbn [negb].
  rewrite PhongMaterial_Evaluate_response, normalized_normalize,
    std_max_Rmax.
  unfold point_light_radiance, point_irradiance, cwiseProduct.
  rewrite norm_sqr. unfold squaredNorm.
  apply vec3_eq; simpl; unfold Rdiv; ring.
Qed.

Lemma PointLight_Illuminate_incompatible (this : PointLight) (h : HitRecord)
  (view_vec : Vec3r) :
  compatible_material (surface_ h) = None ->
  PointLight_Illuminate this h view_vec = vec3 0 0 0.
Proof.
  unfold compatible_material, PointLight_Illuminate.
  destruct (surface_ h) as [s |]; [| reflexivity].
  destruct (dynamic_pointer_cast_PhongMaterial _) as [m' |]; [| reflexivity].
  destruct (String.eqb _ _); [discriminate | reflexivity].
Qed.

Lemma RayColor_miss (ray : Ray) (scene : Surface) (lights : list Light) :
  fst (Surface_Hit scene ray kEpsilon kInfinity HitRecord_default) = false ->
  RayColor ray scene lights = Some (false, vec3 0 0 0).
Proof.
  unfold RayColor.
  destruct (Surface_Hit scene ray kEpsilon kInfinity HitRecord_default)
    as [hit h].
  simpl. intros ->. reflexivity.
Qed.

Lemma RayColor_hit_compatible (ray : Ray) (scene : Surface)
  (lights : list Light) (m : PhongMaterial) :
  fst (Surface_Hit scene ray kEpsilon kInfinity HitRecord_default) = true ->
  compatible_material
    (surface_
       (snd (Surface_Hit scene ray kEpsilon kInfinity HitRecord_default)))
  = Some m ->
  RayColor ray scene lights
  = Some (true,
          sum_colors
            (map (fun light =>
                    Light_Illuminate light
                      (snd (Surface_Hit scene ray kEpsilon kInfinity
                                        HitRecord_default))
                      (vneg (dir_ ray)))
                 lights)).
Proof.
  unfold RayColor, compatible_material.
  destruct (Surface_Hit scene ray kEpsilon kInfinity HitRecord_default)
    as [hit h].
  cbn [fst snd]. intros ->. cbn [negb].
  destruct (surface_ h) as [s |]; [| discriminate].
  destruct (dynamic_pointer_cast_PhongMaterial _) as [m' |]; [| discriminate].
  destruct (String.eqb _ _); [| discriminate].
  intros _. rewrite fold_left_vadd, vscale_m1.
  f_equal. f_equal. apply vec3_eq; simpl; ring.
Qed.

Lemma RayColor_hit_incompatible (ray : Ray) (scene : Surface)
  (lights : list Light) (surface : Surface) :
  fst (Surface_Hit scene ray kEpsilon kInfinity HitRecord_default) = true ->
  surface_ (snd (Surface_Hit scene ray kEpsilon kInfinity HitRecord_default))
  = Some surface ->
  compatible_material
    (surface_
       (snd (Surface_Hit scene ray kEpsilon kInfinity HitRecord_default)))
  = None ->
  RayColor ray scene lights = Some (true, vec3 1 0 0).
Proof.
  unfold RayColor, compatible_material.
  destruct (Surface_Hit scene ray kEpsilon kInfinity HitRecord_default)
    as [hit h].
  cbn [fst snd]. intros -> ->. cbn [negb].
  destruct (dynamic_pointer_cast_PhongMaterial _) as [m' |]; [| reflexivity].
  destruct (String.eqb _ _); [discriminate | reflexivity].
Qed.

(** C5.  RayColor tests the scene over [kEpsilon, kInfinity].  On a miss it
    produces black.  On a hit whose surface carries a Phong-capable material
    it produces the sum over all lights of
    Illuminate(hitRecord, -ray.direction).  On a hit whose surface does not
    carry such a material it produces the colour (1,0,0). *)
Theorem RayColor_spec (ray : Ray) (scene : Surface) (lights : list Light) :
  let r := Surface_Hit scene ray kEpsilon kInfinity HitRecord_default in
  (fst r = false -> RayColor ray scene lights = Some (false, vec3 0 0 0))
  /\ (forall m,
        fst r = true ->
        compatible_material (surface_ (snd r)) = Some m ->
        RayColor ray scene lights
        = Some (true,
                sum_colors
                  (map (fun light =>
                          Light_Illuminate light (snd r) (vneg (dir_ ray)))
                       lights)))
  /\ (forall surface,
        fst r = true ->
        surface_ (snd r) = Some surface ->
        compatible_material (surface_ (snd r)) = None ->
        RayColor ray scene lights = Some (true, vec3 1 0 0)).
Proof.
  cbv zeta. split; [| split].
  - apply RayColor_miss.
  - intros m. apply RayColor_hit_compatible.
  - intros surface. apply RayColor_hit_incompatible.
Qed.

(** C6.  PointLight.Illuminate returns the element-wise product of the
    irradiance intensity * max(0, normal . lightVec) / |position - hitPoint|^2,
    lightVec = normalize(position - hitPoint), and the response of the
    material, diffuse + specular * max(0, normal . half)^shininess per
    channel with half = normalize(viewVec + lightVec), which is what
    Material.Evaluate returns; if the hit surface carries no compatible
    material it returns black. *)
Theorem PointLight_Illuminate_spec (this : PointLight) (h : HitRecord)
  (view_vec : Vec3r) :
  let lightVec := normalize (position_ this -v point_ h)%vec in
  (forall m,
      compatible_material (surface_ h) = Some m ->
      PointLight_Illuminate this h view_vec
      = cwiseProduct (point_irradiance this h)
          (PhongMaterial_Evaluate m h lightVec view_vec)
      /\ PhongMaterial_Evaluate m h lightVec view_vec
         = blinn_phong_response m (hit_normal_ h) lightVec view_vec)
  /\ (compatible_material (surface_ h) = None ->
      PointLight_Illuminate this h view_vec = vec3 0 0 0).
Proof.
  cbv zeta. split.
  - intros m Hm. rewrite PhongMaterial_Evaluate_response.
    split; [| reflexivity].
    apply PointLight_Illuminate_compatible, Hm.
  - apply PointLight_Illuminate_incompatible.
Qed.

End ShadingProperties.

(** C7, as stated, fails on a hit whose Phong material does not carry the
    name "PhongMaterial": the ambient light (0.2,0.2,0.2) on the material
    "gold" with ambient coefficient (1,0.5,0) gives black, not the
    element-wise product. *)
Lemma AmbientLight_Illuminate_named_material :
  surface_ (example_hit_on example_gold)
  = Some (SphereS (example_sphere_with (Some (Phong example_gold))))
  /\ ambient_ example_gold = vec3 1 (1 / 2) 0
  /\ AmbientLight_Illuminate example_ambient_light
       (example_hit_on example_gold) (vec3 0 0 (-1))
     <> cwiseProduct (light_ambient_ example_ambient_light)
                     (ambient_ example_gold).
Proof.
  split; [reflexivity | split; [reflexivity |]].
  intros H. apply (f_equal vx) in H. simpl in H. lra.
Qed.

(** C7, amended.  On a hit whose surface carries a Phong material named
    "PhongMaterial", AmbientLight.Illuminate returns the element-wise
    product of the light's colour and the material's ambient coefficient;
    on any other hit it returns black.  The result depends on the hit record
    through its surface only, and not on the view vector.  With the colour
    (0.2,0.2,0.2) and the ambient coefficient (1,0.5,0) of a compatible
    material it is (0.2,0.1,0). *)
Theorem AmbientLight_Illuminate_spec (this : AmbientLight) (h : HitRecord)
  (view_vec : Vec3r) :
  (forall m,
      compatible_material (surface_ h) = Some m ->
      AmbientLight_Illuminate this h view_vec
      = cwiseProduct (light_ambient_ this) (ambient_ m))
  /\ (compatible_material (surface_ h) = None ->
      AmbientLight_Illuminate this h view_vec = vec3 0 0 0)
  /\ (forall h' view_vec',
        surface_ h' = surface_ h ->
        AmbientLight_Illuminate this h' view_vec'
        = AmbientLight_Illuminate this h view_vec)
  /\ (forall m,
        compatible_material (surface_ h) = Some m ->
        light_ambient_ this = vec3 (2 / 10) (2 / 10) (2 / 10) ->
        ambient_ m = vec3 1 (5 / 10) 0 ->
        AmbientLight_Illuminate this h view_vec
        = vec3 (2 / 10) (1 / 10) 0).
Proof.
  split; [| split; [| split]].
  - intros m. apply AmbientLight_Illuminate_compatible.
  - apply AmbientLight_Illuminate_incompatible.
  - intros h' v' Hs. unfold AmbientLight_Illuminate. rewrite Hs.
    reflexivity.
  - intros m Hm Hl Ha.
    rewrite (AmbientLight_Illuminate_compatible this h view_vec m Hm).
    rewrite Hl, Ha. apply vec3_eq; simpl; field.
Qed.

Lemma example_plain_compatible :
  compatible_material (surface_ (example_hit_on example_plain))
  = Some example_plain.
Proof. reflexivity. Qed.

Lemma AmbientLight_Illuminate_spec_witness :
  compatible_material (surface_ (example_hit_on example_plain))
  = Some example_plain
  /\ AmbientLight_Illuminate example_ambient_light
       (example_hit_on example_plain) (vec3 0 0 (-1))
     = cwiseProduct (light_ambient_ example_ambient_light)
                    (ambient_ example_plain).
Proof.
  split; [exact example_plain_compatible |].
  exact (proj1
           (AmbientLight_Illuminate_spec example_ambient_light
              (example_hit_on example_plain) (vec3 0 0 (-1)))
           example_plain example_plain_compatible).
Defined.

Section ShadingExamples.
#[local] Existing Instance reference_externals.

Lemma PointLight_Illuminate_spec_witness :
  compatible_material (surface_ (example_hit_on example_plain))
  = Some example_plain
  /\ PointLight_Illuminate example_point_light
       (example_hit_on example_plain) (vec3 0 0 (-1))
     = cwiseProduct
         (point_irradiance example_point_light
                           (example_hit_on example_plain))
         (PhongMaterial_Evaluate example_plain
            (example_hit_on example_plain)
            (normalize
               (position_ example_point_light
                -v point_ (example_hit_on example_plain))%vec)
            (vec3 0 0 (-1))).
Proof.
  split; [exact example_plain_compatible |].
  exact (proj1
           (proj1
              (PointLight_Illuminate_spec example_point_light
                 (example_hit_on example_plain) (vec3 0 0 (-1)))
              example_plain example_plain_compatible)).
Defined.

(** The sphere with the material [m], seen along the example ray, is hit
    inside the range RayColor uses. *)
Lemma example_RayColor_hit (m : PhongMaterial) :
  Surface_Hit (SphereS (example_sphere_with (Some (Phong m)))) example_ray
              kEpsilon kInfinity HitRecord_default
  = (true, example_hit_on m).
Proof.
  cbn [Surface_Hit]. apply example_sphere_hit. simpl. lra.
Qed.

Lemma RayColor_spec_witness :
  let scene := SphereS (example_sphere_with (Some (Phong example_plain))) in
  let r :=
    Surface_Hit scene example_ray kEpsilon kInfinity HitRecord_default in
  fst r = true
  /\ compatible_material (surface_ (snd r)) = Some example_plain
  /\ RayColor example_ray scene [AmbientLightL example_ambient_light]
     = Some (true,
             sum_colors
               (map (fun light =>
                       Light_Illuminate light (snd r)
                                        (vneg (dir_ example_ray)))
                    [AmbientLightL example_ambient_light])).
Proof.
  cbv zeta.
  assert (Hhit : fst (Surface_Hit
                        (SphereS
                           (example_sphere_with (Some (Phong example_plain))))
                        example_ray kEpsilon kInfinity HitRecord_default)
                 = true)
    by (rewrite example_RayColor_hit; reflexivity).
  assert (Hm : compatible_material
                 (surface_
                    (snd (Surface_Hit
                            (SphereS
                               (example_sphere_with
                                  (Some (Phong example_plain))))
                            example_ray kEpsilon kInfinity
                            HitRecord_default)))
               = Some example_plain)
    by (rewrite example_RayColor_hit; reflexivity).
  split; [exact Hhit | split; [exact Hm |]].
  exact (proj1 (proj2
           (RayColor_spec example_ray
              (SphereS (example_sphere_with (Some (Phong example_plain))))
              [AmbientLightL example_ambient_light]))
         example_plain Hhit Hm).
Defined.

End ShadingExamples.

(** ** Phong-compatibility is decided by the name of the material *)

Section CompatibilityByName.
Context {E : Externals}.

(** C9.  A [PhongMaterial] constructed with a non-empty name other than
    "PhongMaterial" is not accepted: on every hit whose surface carries it,
    both lights return black and RayColor yields (1,0,0).  Constructed with
    the empty name it is named "PhongMaterial" and takes the shading
    path. *)
Theorem Phong_compatibility_by_name (init : PhongMaterial) (a d s : Vec3r)
  (sh : R) (mi : Vec3r) (name : string) (m : PhongMaterial)
  (surface : Surface) (h : HitRecord) :
  m = PhongMaterial_new a d s sh mi name
  \/ m = PhongMaterial_named init name ->
  surface_ h = Some surface ->
  Surface_GetMaterial surface = Some (Phong m) ->
  (name <> ""%string -> name <> "PhongMaterial"%string ->
   (forall l v, PointLight_Illuminate l h v = vec3 0 0 0)
   /\ (forall l v, AmbientLight_Illuminate l h v = vec3 0 0 0)
   /\ (forall ray scene lights,
         Surface_Hit scene ray kEpsilon kInfinity HitRecord_default
         = (true, h) ->
         RayColor ray scene lights = Some (true, vec3 1 0 0)))
  /\ (name = ""%string ->
      pm_name_ m = "PhongMaterial"%string
      /\ (forall l v,
            PointLight_Illuminate l h v = point_light_radiance l m h v)
      /\ (forall l v,
            AmbientLight_Illuminate l h v
            = cwiseProduct (light_ambient_ l) (ambient_ m))
      /\ (forall ray scene lights,
            Surface_Hit scene ray kEpsilon kInfinity HitRecord_default
            = (true, h) ->
            RayColor ray scene lights
            = Some (true,
                    sum_colors
                      (map (fun light =>
                              Light_Illuminate light h (vneg (dir_ ray)))
                           lights)))).
Proof.
  intros Hm Hs Hmat.
  assert (Hname : pm_name_ m = default_name name "PhongMaterial")
    by (destruct Hm as [-> | ->]; reflexivity).
  pose proof (compatible_material_Phong h surface m Hs Hmat) as Hc.
  split.
  - intros Hne Hnp.
    rewrite Hname, default_name_nonempty in Hc by exact Hne.
    rewrite (proj2 (String.eqb_neq _ _) Hnp) in Hc.
    split; [| split].
    + intros l v. apply PointLight_Illuminate_incompatible, Hc.
    + intros l v. apply AmbientLight_Illuminate_incompatible, Hc.
    + intros ray scene lights Hhit.
      apply (RayColor_hit_incompatible ray scene lights surface);
        rewrite Hhit; assumption || reflexivity.
  - intros ->. rewrite default_name_empty in Hname.
    rewrite Hname in Hc. cbn in Hc.
    split; [exact Hname | split; [| split]].
    + intros l v. apply PointLight_Illuminate_compatible, Hc.
    + intros l v. apply AmbientLight_Illuminate_compatible, Hc.
    + intros ray scene lights Hhit.
      pose proof (RayColor_hit_compatible ray scene lights m) as Hr.
      rewrite Hhit in Hr. apply Hr; [reflexivity | exact Hc].
Qed.

End CompatibilityByName.

Section CompatibilityExamples.
#[local] Existing Instance reference_externals.

Lemma Phong_compatibility_by_name_witness :
  (forall l v,
      PointLight_Illuminate l (example_hit_on example_gold) v = vec3 0 0 0)
  /\ (forall l v,
        AmbientLight_Illuminate l (example_hit_on example_gold) v
        = vec3 0 0 0)
  /\ (forall ray scene lights,
        Surface_Hit scene ray kEpsilon kInfinity HitRecord_default
        = (true, example_hit_on example_gold) ->
        RayColor ray scene lights = Some (true, vec3 1 0 0)).
Proof.
  refine (proj1
            (Phong_compatibility_by_name example_gold
               (vec3 1 (1 / 2) 0) (vec3 1 1 1) (vec3 0 0 0) 10 (vec3 0 0 0)
               "gold" example_gold
               (SphereS (example_sphere_with (Some (Phong example_gold))))
               (example_hit_on example_gold)
               (or_introl eq_refl) eq_refl eq_refl) _ _);
    discriminate.
Defined.

(** The sphere carrying the material named "gold" is drawn in the
    diagnostic colour, the one carrying the default name is shaded. *)
Example example_RayColor_gold :
  RayColor example_ray
    (SphereS (example_sphere_with (Some (Phong example_gold))))
    [AmbientLightL example_ambient_light]
  = Some (true, vec3 1 0 0).
Proof.
  unfold RayColor. rewrite example_RayColor_hit. reflexivity.
Qed.

Example example_RayColor_plain :
  RayColor example_ray
    (SphereS (example_sphere_with (Some (Phong example_plain))))
    [AmbientLightL example_ambient_light]
  = Some (true, vec3 (1 / 5) (1 / 10) 0).
Proof.
  unfold RayColor. rewrite example_RayColor_hit.
  cbn. f_equal. f_equal. apply vec3_eq; simpl; field.
Qed.

End CompatibilityExamples.

(** ** Normals of successful hits

    Spheres and triangles that satisfy their invariants leave a unit,
    front-facing normal and themselves in the record of every hit, and so
    does a surface list for every hit nearer than tmax.  (The hit of a list
    at exactly tmax is the case of [example_scene_hit_at_tmax].) *)

Lemma front_facing_unit_oriented (ray : Ray) (t : R) (p n : Vec3r)
  (s : Surface) :
  squaredNorm n = 1 ->
  front_facing_unit ray (mkHitRecord t p (oriented_normal ray n) (Some s)).
Proof.
  intros Hn. unfold front_facing_unit. cbn [hit_normal_ surface_].
  split; [| split].
  - apply norm_of_squaredNorm_1.
    rewrite oriented_normal_squaredNorm. exact Hn.
  - rewrite <- vscale_m1. apply oriented_normal_front_facing.
  - discriminate.
Qed.

Lemma Sphere_Hit_front_facing_unit (this : Sphere) (ray : Ray)
  (tmin tmax : R) (h h' : HitRecord) :
  dot (dir_ ray) (dir_ ray) <> 0 ->
  radius_ this <> 0 ->
  Sphere_Hit this ray tmin tmax h = (true, h') ->
  front_facing_unit ray h'.
Proof.
  intros Hd Hr. rewrite Sphere_Hit_unfold.
  destruct (Rlt_dec (sphere_discriminant this ray) 0) as [| Hdisc];
    [discriminate |].
  destruct (_ || _); [discriminate |].
  intros [= <-]. unfold sphere_hit_record.
  apply front_facing_unit_oriented, normalize_unit.
  rewrite (sphere_roots_solve this ray (sphere_smaller_root this ray));
    [nra | exact Hd | lra |].
  unfold sphere_smaller_root, Rmin. destruct (Rle_dec _ _); tauto.
Qed.

Lemma Triangle_invariant_unit (t : Triangle) (ray : Ray) :
  Triangle_invariant t ->
  dot (normal_ t) (dir_ ray) <> 0 ->
  squaredNorm (normal_ t) = 1.
Proof.
  unfold Triangle_invariant, triangle_normal_of. intros Hinv Hdot.
  rewrite Hinv. apply normalize_unit.
  pose proof (squaredNorm_nonneg
                (cross (point1_ t -v point0_ t) (point2_ t -v point0_ t)))
    as Hnn.
  destruct (Req_dec_T
              (squaredNorm
                 (cross (point1_ t -v point0_ t) (point2_ t -v point0_ t)))
              0) as [Hz | Hnz]; [| lra].
  exfalso. apply Hdot. rewrite Hinv. unfold normalize.
  rewrite (squaredNorm_zero _ Hz), dot_vdivs_l.
  unfold dot, vzero, Rdiv; simpl. ring.
Qed.

Lemma Triangle_Hit_front_facing_unit {E : Externals} (this : Triangle)
  (ray : Ray) (tmin tmax : R) (h h' : HitRecord) :
  Triangle_invariant this ->
  Triangle_Hit this ray tmin tmax h = (true, h') ->
  front_facing_unit ray h'.
Proof.
  intros Hinv. rewrite Triangle_Hit_unfold. cbv zeta.
  destruct (Req_b _ 0) eqn:Hperp; [discriminate |].
  apply Req_b_false in Hperp.
  repeat (match goal with
          | |- (if ?c then _ else _) = _ -> _ =>
            destruct c; [discriminate |]
          end).
  intros [= <-]. unfold triangle_hit_record.
  apply front_facing_unit_oriented.
  apply (Triangle_invariant_unit this ray Hinv Hperp).
Qed.

(** A list hit nearer than tmax is the copy of a child's record that is
    itself nearer than tmax. *)
Lemma SurfaceList_Hit_copied {E : Externals}
  (child_hit : Surface -> Ray -> R -> R -> HitRecord -> bool * HitRecord)
  (surfaces : list Surface) (ray : Ray) (tmin tmax : R)
  (h h' : HitRecord) :
  SurfaceList_Hit child_hit surfaces ray tmin tmax h = (true, h') ->
  ray_t_ h' < tmax ->
  exists c,
    In c (accepted_hits
            (child_results child_hit ray tmin tmax surfaces
                           HitRecord_default))
    /\ ray_t_ c < tmax
    /\ h' = copied_record ray c.
Proof.
  rewrite SurfaceList_Hit_fold. cbv zeta. intros [= _ Hfold] Hlt.
  set (hs := accepted_hits _) in *.
  destruct (nearer_or_not tmax hs) as [Hall | Hex].
  - rewrite fold_keep_nearer_none in Hfold by exact Hall.
    subst h'. simpl in Hlt. lra.
  - destruct (fold_keep_nearer_first_min ray hs (SetRayT h tmax) Hex)
      as (pre & c & post & Heq & Hc & _ & _ & Hcopy).
    exists c. split; [| split].
    + rewrite Heq. apply in_or_app. right. left. reflexivity.
    + exact Hc.
    + rewrite <- Hfold. exact Hcopy.
Qed.

(** Every accepted record of [child_results] is the record some child
    returned together with [true]. *)
Lemma accepted_hits_from_child
  (child_hit : Surface -> Ray -> R -> R -> HitRecord -> bool * HitRecord)
  (ray : Ray) (tmin tmax : R) (surfaces : list Surface) :
  forall best c,
    In c (accepted_hits
            (child_results child_hit ray tmin tmax surfaces best)) ->
    exists surface b,
      In surface surfaces
      /\ child_hit surface ray tmin tmax b = (true, c).
Proof.
  induction surfaces as [| s rest IH]; intros best c Hin.
  - destruct Hin.
  - unfold accepted_hits in Hin. cbn [child_results filter] in Hin.
    destruct (child_hit s ray tmin tmax best) as [hit b'] eqn:Hc.
    cbn [fst snd] in Hin. destruct hit.
    + destruct Hin as [<- | Hin].
      * exists s, best. split; [left; reflexivity | exact Hc].
      * destruct (IH b' c Hin) as (s' & b & Hs' & Hb).
        exists s', b. split; [right; exact Hs' | exact Hb].
    + destruct (IH b' c Hin) as (s' & b & Hs' & Hb).
      exists s', b. split; [right; exact Hs' | exact Hb].
Qed.

Section SurfaceNormals.
Context {E : Externals}.

Lemma SurfaceList_Hit_front_facing_unit (surfaces : list Surface)
  (ray : Ray) (tmin tmax : R) (h h' : HitRecord) :
  (forall surface b c,
      In surface surfaces ->
      Surface_Hit surface ray tmin tmax b = (true, c) ->
      ray_t_ c < tmax ->
      front_facing_unit ray c) ->
  SurfaceList_Hit Surface_Hit surfaces ray tmin tmax h = (true, h') ->
  ray_t_ h' < tmax ->
  front_facing_unit ray h'.
Proof.
  intros Hchildren Hhit Hlt.
  destruct (SurfaceList_Hit_copied Surface_Hit surfaces ray tmin tmax h h'
              Hhit Hlt) as (c & Hin & Hc & ->).
  destruct (accepted_hits_from_child Surface_Hit ray tmin tmax surfaces
              HitRecord_default c Hin) as (surface & b & Hs & Hb).
  destruct (Hchildren surface b c Hs Hb Hc) as (Hunit & Hfront & Hsurf).
  unfold front_facing_unit, copied_record. cbn [hit_normal_ surface_].
  split; [| split].
  - apply norm_of_squaredNorm_1. rewrite oriented_normal_squaredNorm.
    rewrite <- norm_sqr, Hunit. ring.
  - rewrite <- vscale_m1. apply oriented_normal_front_facing.
  - exact Hsurf.
Qed.

(** X11.  Every hit nearer than tmax on a scene that satisfies the invariants
    leaves a unit, front-facing normal and a surface in the record. *)
Lemma Surface_Hit_front_facing_unit (ray : Ray) (tmin tmax : R) :
  dot (dir_ ray) (dir_ ray) <> 0 ->
  forall (s : Surface) (h h' : HitRecord),
    Surface_invariant s ->
    Surface_Hit s ray tmin tmax h = (true, h') ->
    ray_t_ h' < tmax ->
    front_facing_unit ray h'.
Proof.
  intros Hd.
  fix IH 1. intros [sp | t | name material surfaces] h h' Hinv Hhit Hlt.
  - exact (Sphere_Hit_front_facing_unit sp ray tmin tmax h h' Hd Hinv Hhit).
  - exact (Triangle_Hit_front_facing_unit t ray tmin tmax h h' Hinv Hhit).
  - cbn [Surface_Hit] in Hhit.
    apply (SurfaceList_Hit_front_facing_unit surfaces ray tmin tmax h h');
      try assumption.
    clear h h' Hhit Hlt. cbn [Surface_invariant] in Hinv.
    induction surfaces as [| x rest IHl]; intros surface b c Hin.
    + destruct Hin.
    + destruct Hinv as [Hx Hrest]. destruct Hin as [<- | Hin].
      * apply (IH x b c Hx).
      * apply (IHl Hrest surface b c Hin).
Qed.

End SurfaceNormals.

(** ** Further properties of the shading *)



(** A point light at (0,0,5) of intensity (1,1,1) over a surface at the
    origin with normal (0,0,1), diffuse colour (1,1,1) and no specular
    colour contributes (0.04, 0.04, 0.04). *)
Example example_lamp_over_floor {E : Externals} (view_vec : Vec3r) :
  PointLight_Illuminate example_lamp example_floor_hit view_vec
  = vec3 (4 / 100) (4 / 100) (4 / 100).
Proof.
  rewrite (PointLight_Illuminate_compatible _ _ _ example_matte)
    by reflexivity.
  unfold point_light_radiance, point_irradiance, blinn_phong_response.
  cbn [example_lamp example_floor_hit position_ intensity_ point_
       hit_normal_].
  assert (Hv : (vec3 0 0 5 -v vec3 0 0 0)%vec = vec3 0 0 5)
    by (apply vec3_eq; simpl; ring).
  rewrite Hv.
  assert (Hnorm : norm (vec3 0 0 5) = 5).
  { unfold norm.
    replace (squaredNorm (vec3 0 0 5)) with (5 * 5)
      by (unfold squaredNorm, dot; simpl; ring).
    apply sqrt_square. lra. }
  assert (Hl : normalize (vec3 0 0 5) = vec3 0 0 1).
  { unfold normalize. rewrite Hnorm. apply vec3_eq; simpl; field. }
  rewrite Hl, Hnorm.
  replace (dot (vec3 0 0 1) (vec3 0 0 1)) with 1
    by (unfold dot; simpl; ring).
  rewrite Rmax_right by lra.
  apply vec3_eq; simpl; field.
Qed.

(** * Further properties of the code *)

(** ** Vector identities *)

Lemma squaredNorm_cross (a b : Vec3r) :
  squaredNorm (cross a b)
  = squaredNorm a * squaredNorm b - dot a b ^ 2.
Proof. unfold squaredNorm, cross, dot; simpl; ring. Qed.

Lemma dot_cross_left (a b : Vec3r) : dot (cross a b) a = 0.
Proof. unfold cross, dot; simpl; ring. Qed.

Lemma dot_cross_right (a b : Vec3r) : dot (cross a b) b = 0.
Proof. unfold cross, dot; simpl; ring. Qed.

Lemma cross_cross (a b c : Vec3r) :
  cross a (cross b c) = (dot a c *v b -v dot a b *v c)%vec.
Proof. apply vec3_eq; unfold cross, dot; simpl; ring. Qed.

Lemma cross_vdivs_r (a b : Vec3r) (k : R) :
  cross a (vdivs b k) = vdivs (cross a b) k.
Proof. apply vec3_eq; unfold cross, vdivs, Rdiv; simpl; ring. Qed.

Lemma cross_vdivs_l (a b : Vec3r) (k : R) :
  cross (vdivs a k) b = vdivs (cross a b) k.
Proof. apply vec3_eq; unfold cross, vdivs, Rdiv; simpl; ring. Qed.

Lemma dot_vdivs_r (a b : Vec3r) (k : R) : dot a (vdivs b k) = dot a b / k.
Proof. rewrite dot_comm, dot_vdivs_l, dot_comm. reflexivity. Qed.

Lemma vdivs_1 (a : Vec3r) : vdivs a 1 = a.
Proof. apply vec3_eq; unfold vdivs; simpl; field. Qed.

Lemma norm_vscale_pos (k : R) (a : Vec3r) :
  0 <= k -> norm (k *v a)%vec = k * norm a.
Proof.
  intros Hk. unfold norm.
  replace (squaredNorm (k *v a)%vec) with (k * k * squaredNorm a)
    by (unfold squaredNorm, dot, vscale; simpl; ring).
  rewrite sqrt_mult_alt by nra. rewrite sqrt_square by exact Hk.
  reflexivity.
Qed.

Lemma normalize_vscale_pos (k : R) (a : Vec3r) :
  0 < k -> normalize (k *v a)%vec = normalize a.
Proof.
  intros Hk. unfold normalize. rewrite norm_vscale_pos by lra.
  assert (Hinv : forall x, k * x * / (k * norm a) = x * / norm a).
  { intros x. rewrite Rinv_mult.
    transitivity (k * / k * (x * / norm a)); [ring |].
    rewrite Rinv_r by lra. ring. }
  apply vec3_eq; unfold vdivs, vscale, Rdiv; simpl; apply Hinv.
Qed.

Lemma normalize_vneg (a : Vec3r) : normalize (vneg a) = vneg (normalize a).
Proof.
  unfold normalize, norm. rewrite squaredNorm_vneg.
  apply vec3_eq; unfold vdivs, vneg, Rdiv; simpl; ring.
Qed.

(** From a unit vector [w] and an [up] that is not parallel to it, the
    construction of [LookAt] gives a right-handed orthonormal basis. *)
Lemma lookat_basis (up w : Vec3r) :
  squaredNorm w = 1 ->
  0 < squaredNorm (cross up w) ->
  let u := normalize (cross up w) in
  let v := normalize (cross w u) in
  squaredNorm u = 1 /\ squaredNorm v = 1
  /\ dot u v = 0 /\ dot u w = 0 /\ dot v w = 0
  /\ cross u v = w /\ v = cross w u.
Proof.
  intros Hw Hc u v.
  assert (Hu : squaredNorm u = 1) by (apply normalize_unit; exact Hc).
  assert (Huw : dot u w = 0).
  { unfold u, normalize. rewrite dot_vdivs_l, dot_cross_right.
    unfold Rdiv; ring. }
  assert (Hwu : squaredNorm (cross w u) = 1).
  { rewrite squaredNorm_cross, Hw, Hu, (dot_comm w u), Huw. ring. }
  assert (Hv : v = cross w u).
  { unfold v, normalize. rewrite (norm_of_squaredNorm_1 _ Hwu).
    apply vdivs_1. }
  rewrite Hv. repeat split.
  - exact Hu.
  - exact Hwu.
  - rewrite dot_comm. apply dot_cross_right.
  - exact Huw.
  - apply dot_cross_left.
  - rewrite cross_cross. fold (squaredNorm u). rewrite Hu, Huw.
    apply vec3_eq; simpl; ring.
Qed.

(** ** Camera *)

Section CameraProperties.
Context {CE : CameraExternals}.

Lemma Camera_UpdateViewport_xform (c : Camera) :
  camera_xform_ (Camera_UpdateViewport c) = camera_xform_ c.
Proof. reflexivity. Qed.

(** The axes [LookAt] stores. *)
Lemma Camera_LookAt_axes (c : Camera) (eye target up : Vec3r) (b : bool) :
  let w := normalize (eye -v target)%vec in
  let u := normalize (cross up w) in
  let v := normalize (cross w u) in
  Camera_u (Camera_LookAt c eye target up b) = u
  /\ Camera_v (Camera_LookAt c eye target up b) = v
  /\ Camera_w (Camera_LookAt c eye target up b) = w
  /\ head3 (xcol3 (camera_xform_ (Camera_LookAt c eye target up b))) = eye
  /\ eye_ (Camera_LookAt c eye target up b) = eye.
Proof.
  destruct b, eye, target, up; repeat split; reflexivity.
Qed.

(** X17.  After [LookAt] with an eye different from the target and an up
    vector that is not parallel to the view direction, the stored axes
    u, v, w are unit vectors, mutually orthogonal and right-handed
    (u x v = w), w points from the target to the eye, and the fourth
    column holds the eye. *)
Theorem Camera_LookAt_orthonormal (c : Camera) (eye target up : Vec3r)
  (b : bool) :
  0 < squaredNorm (eye -v target)%vec ->
  0 < squaredNorm (cross up (eye -v target)%vec) ->
  let c' := Camera_LookAt c eye target up b in
  norm (Camera_u c') = 1 /\ norm (Camera_v c') = 1
  /\ norm (Camera_w c') = 1
  /\ dot (Camera_u c') (Camera_v c') = 0
  /\ dot (Camera_u c') (Camera_w c') = 0
  /\ dot (Camera_v c') (Camera_w c') = 0
  /\ cross (Camera_u c') (Camera_v c') = Camera_w c'
  /\ Camera_w c' = normalize (eye -v target)%vec
  /\ head3 (xcol3 (camera_xform_ c')) = eye.
Proof.
  intros Hw0 Hc0 c'.
  destruct (Camera_LookAt_axes c eye target up b)
    as (Hu & Hv & Hw & Heye & _).
  fold c' in Hu, Hv, Hw, Heye. rewrite Hu, Hv, Hw, Heye.
  set (w := normalize (eye -v target)%vec).
  assert (Hwn : squaredNorm w = 1) by (apply normalize_unit; exact Hw0).
  assert (Hc : 0 < squaredNorm (cross up w)).
  { unfold w, normalize. rewrite cross_vdivs_r, squaredNorm_vdivs.
    - replace (norm (eye -v target) * norm (eye -v target))
        with (squaredNorm (eye -v target)%vec)
        by (rewrite <- norm_sqr; ring).
      apply Rdiv_lt_0_compat; assumption.
    - unfold norm. pose proof (sqrt_lt_R0 _ Hw0). lra. }
  destruct (lookat_basis up w Hwn Hc)
    as (H1 & H2 & H3 & H4 & H5 & H6 & _).
  repeat split; try assumption; try reflexivity;
    apply norm_of_squaredNorm_1; assumption.
Qed.


(** X19.  [SetFovy] and [SetAspect] called with [update_viewport = false]
    leave the viewport as it was; the deferred update is made by the next
    call with [true], so setting both parameters on a camera gives the
    camera constructed with them, in either order and whether or not the
    first call updates. *)
Theorem Camera_setters_compose (init : Camera) (eye target up : Vec3r)
  (fovy0 aspect0 fovy aspect : R) (name : string) (b : bool) :
  let c := Camera_new init eye target up fovy0 aspect0 name in
  (horizontal_ (Camera_SetFovy c fovy false) = horizontal_ c
   /\ vertical_ (Camera_SetFovy c fovy false) = vertical_ c
   /\ lower_left_corner_ (Camera_SetFovy c fovy false)
      = lower_left_corner_ c)
  /\ (horizontal_ (Camera_SetAspect c aspect false) = horizontal_ c
      /\ vertical_ (Camera_SetAspect c aspect false) = vertical_ c
      /\ lower_left_corner_ (Camera_SetAspect c aspect false)
         = lower_left_corner_ c)
  /\ Camera_SetAspect (Camera_SetFovy c fovy b) aspect true
     = Camera_new init eye target up fovy aspect name
  /\ Camera_SetFovy (Camera_SetAspect c aspect b) fovy true
     = Camera_new init eye target up fovy aspect name.
Proof.
  cbv zeta. repeat split; try reflexivity; destruct b; reflexivity.
Qed.

(** X20.  [LookAt] depends on the target only through the direction from
    the eye: moving the target along that direction, by any positive
    factor, gives the same axes and the same viewport. *)
Theorem Camera_LookAt_target_distance (c : Camera) (eye target up : Vec3r)
  (k : R) (b : bool) :
  0 < k ->
  let c1 := Camera_LookAt c eye target up b in
  let c2 :=
    Camera_LookAt c eye (eye +v k *v (target -v eye))%vec up b in
  camera_xform_ c2 = camera_xform_ c1
  /\ horizontal_ c2 = horizontal_ c1
  /\ vertical_ c2 = vertical_ c1
  /\ lower_left_corner_ c2 = lower_left_corner_ c1.
Proof.
  intros Hk. cbv zeta.
  assert (Hw : vdivs (eye -v (eye +v k *v (target -v eye)))%vec
                 (norm (eye -v (eye +v k *v (target -v eye)))%vec)
               = vdivs (eye -v target)%vec (norm (eye -v target)%vec)).
  { replace (eye -v (eye +v k *v (target -v eye)))%vec
      with (k *v (eye -v target))%vec
      by (apply vec3_eq; simpl; ring).
    apply (normalize_vscale_pos k _ Hk). }
  unfold Camera_LookAt. cbv zeta. rewrite Hw.
  destruct b; repeat split; reflexivity.
Qed.

End CameraProperties.

Section CameraExamples.
#[local] Existing Instance reference_camera_externals.

Lemma example_camera_nondegenerate :
  0 < squaredNorm (example_eye -v example_target)%vec
  /\ 0 < squaredNorm (cross example_up (example_eye -v example_target)%vec).
Proof.
  unfold squaredNorm, cross, dot, vsub; simpl. split; lra.
Qed.

Lemma Camera_LookAt_orthonormal_witness :
  let c' :=
    Camera_LookAt Camera_empty example_eye example_target example_up true in
  norm (Camera_u c') = 1 /\ norm (Camera_v c') = 1
  /\ norm (Camera_w c') = 1
  /\ dot (Camera_u c') (Camera_v c') = 0
  /\ dot (Camera_u c') (Camera_w c') = 0
  /\ dot (Camera_v c') (Camera_w c') = 0
  /\ cross (Camera_u c') (Camera_v c') = Camera_w c'
  /\ Camera_w c' = normalize (example_eye -v example_target)%vec
  /\ head3 (xcol3 (camera_xform_ c')) = example_eye.
Proof.
  exact (Camera_LookAt_orthonormal Camera_empty example_eye example_target
           example_up true (proj1 example_camera_nondegenerate)
           (proj2 example_camera_nondegenerate)).
Defined.


Lemma Camera_LookAt_target_distance_witness :
  camera_xform_
    (Camera_LookAt Camera_empty example_eye
       (example_eye +v 3 *v (example_target -v example_eye))%vec
       example_up true)
  = camera_xform_
      (Camera_LookAt Camera_empty example_eye example_target example_up
         true).
Proof.
  assert (H3 : 0 < 3) by lra.
  exact (proj1
           (Camera_LookAt_target_distance Camera_empty example_eye
              example_target example_up 3 true H3)).
Defined.

End CameraExamples.

(** ** Sphere: the hit is the first intersection *)

Lemma on_sphere_quadratic (s : Sphere) (ray : Ray) (t : R) :
  on_sphere s ray t
  <-> dot (dir_ ray) (dir_ ray) * t ^ 2
      + 2 * dot (dir_ ray) (sphere_oc s ray) * t
      + (dot (sphere_oc s ray) (sphere_oc s ray) - radius_ s ^ 2) = 0.
Proof.
  unfold on_sphere.
  assert (H : squaredNorm (Ray_At ray t -v center_ s)%vec - radius_ s ^ 2
              = dot (dir_ ray) (dir_ ray) * t ^ 2
                + 2 * dot (dir_ ray) (sphere_oc s ray) * t
                + (dot (sphere_oc s ray) (sphere_oc s ray)
                   - radius_ s ^ 2)).
  { unfold sphere_oc, squaredNorm, Ray_At, dot, vadd, vsub, vscale.
    simpl. ring. }
  split; intros; lra.
Qed.

(** Every intersection parameter is one of the two roots, and there is none
    when the discriminant is negative. *)
Lemma on_sphere_roots (s : Sphere) (ray : Ray) (t : R) :
  dot (dir_ ray) (dir_ ray) <> 0 ->
  on_sphere s ray t ->
  0 <= sphere_discriminant s ray
  /\ (t = sphere_root1 s ray \/ t = sphere_root2 s ray).
Proof.
  intros Hd Hon. apply on_sphere_quadratic in Hon.
  set (a := dot (dir_ ray) (dir_ ray)) in *.
  set (b := dot (dir_ ray) (sphere_oc s ray)) in *.
  assert (Hsq : (a * t + b) ^ 2 = sphere_discriminant s ray).
  { unfold sphere_discriminant. fold a b. nra. }
  assert (Hdisc : 0 <= sphere_discriminant s ray).
  { rewrite <- Hsq. apply pow2_ge_0. }
  split; [exact Hdisc |].
  assert (Hs : sqrt (sphere_discriminant s ray) ^ 2
               = sphere_discriminant s ray).
  { rewrite <- Rsqr_pow2. apply Rsqr_sqrt, Hdisc. }
  pose proof (sqrt_pos (sphere_discriminant s ray)) as Hpos.
  assert (Hcases : sqrt (sphere_discriminant s ray) = a * t + b
                   \/ sqrt (sphere_discriminant s ray) = - (a * t + b)).
  { destruct (Rle_dec 0 (a * t + b)); [left | right]; nra. }
  unfold sphere_root1, sphere_root2. fold a b.
  destruct Hcases as [Hc | Hc]; [right | left]; rewrite Hc;
    field; exact Hd.
Qed.

Lemma sphere_smaller_root_first (s : Sphere) (ray : Ray) :
  dot (dir_ ray) (dir_ ray) <> 0 ->
  0 <= sphere_discriminant s ray ->
  first_on_sphere s ray (sphere_smaller_root s ray).
Proof.
  intros Hd Hdisc.
  assert (Hle : sphere_root1 s ray <= sphere_root2 s ray).
  { apply sphere_root1_le_root2. fold (squaredNorm (dir_ ray)).
    apply squaredNorm_nonneg. }
  assert (Hmin : sphere_smaller_root s ray = sphere_root1 s ray)
    by (apply Rmin_left; exact Hle).
  split.
  - unfold on_sphere. apply sphere_roots_solve; try assumption.
    left; exact Hmin.
  - intros t' Hon. rewrite Hmin.
    destruct (on_sphere_roots s ray t' Hd Hon) as [_ [-> | ->]]; lra.
Qed.

Lemma first_on_sphere_unique (s : Sphere) (ray : Ray) (t1 t2 : R) :
  first_on_sphere s ray t1 -> first_on_sphere s ray t2 -> t1 = t2.
Proof.
  intros [H1 L1] [H2 L2]. pose proof (L1 t2 H2). pose proof (L2 t1 H1). lra.
Qed.

(** X2.  For a ray with a non-zero direction, Sphere.Hit returns true
    exactly when the first point at which the ray's line meets the sphere
    has its parameter in [tmin, tmax]; the record then holds that
    parameter and that point.  In particular the reported point lies on
    the sphere, and a miss proves that the first intersection, if there is
    one, is out of range. *)
Theorem Sphere_Hit_first_intersection (this : Sphere) (ray : Ray)
  (tmin tmax : R) (h : HitRecord) :
  dot (dir_ ray) (dir_ ray) <> 0 ->
  (fst (Sphere_Hit this ray tmin tmax h) = true
   <-> exists t, first_on_sphere this ray t /\ tmin <= t <= tmax)
  /\ (fst (Sphere_Hit this ray tmin tmax h) = true ->
      first_on_sphere this ray
        (ray_t_ (snd (Sphere_Hit this ray tmin tmax h)))
      /\ point_ (snd (Sphere_Hit this ray tmin tmax h))
         = Ray_At ray (ray_t_ (snd (Sphere_Hit this ray tmin tmax h)))
      /\ tmin <= ray_t_ (snd (Sphere_Hit this ray tmin tmax h)) <= tmax).
Proof.
  intros Hd. rewrite Sphere_Hit_unfold.
  destruct (Rlt_dec (sphere_discriminant this ray) 0) as [Hneg | Hnn].
  - cbn [fst snd]. split.
    + split; [discriminate |].
      intros (t & [Hon _] & _).
      destruct (on_sphere_roots this ray t Hd Hon) as [Hge _]. lra.
    + discriminate.
  - assert (Hdisc : 0 <= sphere_discriminant this ray) by lra.
    pose proof (sphere_smaller_root_first this ray Hd Hdisc) as Hfirst.
    destruct (Rlt_b (sphere_smaller_root this ray) tmin) eqn:Hlo;
      [apply Rlt_b_true in Hlo | apply Rlt_b_false in Hlo];
      (destruct (Rlt_b tmax (sphere_smaller_root this ray)) eqn:Hhi;
       [apply Rlt_b_true in Hhi | apply Rlt_b_false in Hhi]);
      cbn [orb fst snd]; (split; [split |]); try discriminate;
      try (intros (t & Ht & Hr);
           rewrite (first_on_sphere_unique this ray t _ Ht Hfirst) in Hr;
           lra).
    + intros _. exists (sphere_smaller_root this ray).
      split; [exact Hfirst | lra].
    + intros _. unfold sphere_hit_record. cbn [ray_t_ point_].
      split; [exact Hfirst | split; [reflexivity | lra]].
Qed.

Lemma Sphere_Hit_first_intersection_witness :
  dot (dir_ example_ray) (dir_ example_ray) <> 0
  /\ (fst (Sphere_Hit example_sphere example_ray 0 10 HitRecord_empty) = true
      <-> exists t,
          first_on_sphere example_sphere example_ray t /\ 0 <= t <= 10).
Proof.
  assert (Hd : dot (dir_ example_ray) (dir_ example_ray) <> 0).
  { rewrite example_ray_eq. unfold dot; simpl. lra. }
  split; [exact Hd |].
  exact (proj1
           (Sphere_Hit_first_intersection example_sphere example_ray 0 10
              HitRecord_empty Hd)).
Defined.

(** X4.  Sphere.Hit uses the radius only through its square: a sphere
    whose radius was set to the opposite value is hit by the same rays, at
    the same parameter and point and with the same normal.  Only the
    surface stored in the record differs. *)
Theorem Sphere_Hit_negated_radius (this : Sphere) (ray : Ray)
  (tmin tmax : R) (h : HitRecord) :
  let that := Sphere_SetRadius this (- radius_ this) in
  fst (Sphere_Hit that ray tmin tmax h)
  = fst (Sphere_Hit this ray tmin tmax h)
  /\ ray_t_ (snd (Sphere_Hit that ray tmin tmax h))
     = ray_t_ (snd (Sphere_Hit this ray tmin tmax h))
  /\ point_ (snd (Sphere_Hit that ray tmin tmax h))
     = point_ (snd (Sphere_Hit this ray tmin tmax h))
  /\ hit_normal_ (snd (Sphere_Hit that ray tmin tmax h))
     = hit_normal_ (snd (Sphere_Hit this ray tmin tmax h)).
Proof.
  cbv zeta. rewrite !Sphere_Hit_unfold.
  assert (Hdisc : sphere_discriminant
                    (Sphere_SetRadius this (- radius_ this)) ray
                  = sphere_discriminant this ray).
  { unfold sphere_discriminant, sphere_oc, Sphere_SetRadius; simpl. ring. }
  assert (Hroot : sphere_smaller_root
                    (Sphere_SetRadius this (- radius_ this)) ray
                  = sphere_smaller_root this ray).
  { unfold sphere_smaller_root, sphere_root1, sphere_root2.
    rewrite Hdisc. reflexivity. }
  rewrite Hdisc, Hroot.
  destruct (Rlt_dec _ 0); [repeat split; reflexivity |].
  destruct (_ || _); repeat split; reflexivity.
Qed.

(** ** Triangle: the hit in barycentric coordinates *)

(** At a point p0 + beta u + gamma v of the plane, the three edge tests
    are gamma, 1 - beta - gamma and beta, each times (u x v) . n. *)
Lemma edge_tests_in_plane (p0 p1 p2 n : Vec3r) (beta gamma : R) :
  let x := (p0 +v beta *v (p1 -v p0) +v gamma *v (p2 -v p0))%vec in
  let k := dot (cross (p1 -v p0) (p2 -v p0)) n in
  edge_test p0 p1 x n = gamma * k
  /\ edge_test p1 p2 x n = (1 - beta - gamma) * k
  /\ edge_test p2 p0 x n = beta * k.
Proof.
  cbv zeta. unfold edge_test, cross, dot, vadd, vsub, vscale; simpl.
  repeat split; ring.
Qed.

(** Under the invariant, a ray that is not perpendicular to the normal
    sees a triangle of non-zero area, and (u x v) . n is its positive
    length. *)
Lemma Triangle_invariant_area (t : Triangle) (ray : Ray) :
  Triangle_invariant t ->
  dot (normal_ t) (dir_ ray) <> 0 ->
  0 < dot (cross (point1_ t -v point0_ t) (point2_ t -v point0_ t))
          (normal_ t).
Proof.
  intros Hinv Hdot.
  unfold Triangle_invariant, triangle_normal_of, normalize in Hinv.
  set (c := cross (point1_ t -v point0_ t) (point2_ t -v point0_ t)) in *.
  assert (Hc : 0 < squaredNorm c).
  { pose proof (squaredNorm_nonneg c) as Hnn.
    destruct (Req_dec_T (squaredNorm c) 0) as [Hz | Hnz]; [| lra].
    exfalso. apply Hdot. rewrite Hinv, (squaredNorm_zero c Hz), dot_vdivs_l.
    unfold dot, vzero, Rdiv; simpl. ring. }
  rewrite Hinv, dot_vdivs_r. fold (squaredNorm c).
  apply Rdiv_lt_0_compat; [exact Hc |].
  unfold norm. apply sqrt_lt_R0. exact Hc.
Qed.

(** The normals of the two windings of the same points are opposite. *)
Lemma triangle_normal_of_swap (p0 p1 p2 : Vec3r) :
  triangle_normal_of p0 p2 p1 = vneg (triangle_normal_of p0 p1 p2).
Proof.
  unfold triangle_normal_of, normalize.
  assert (Hswap : cross (p2 -v p0) (p1 -v p0)
                  = vneg (cross (p1 -v p0) (p2 -v p0)))
    by (apply vec3_eq; unfold cross, vsub, vneg; simpl; ring).
  rewrite Hswap. unfold norm. rewrite squaredNorm_vneg.
  apply vec3_eq; unfold vdivs, vneg, Rdiv; simpl; ring.
Qed.

Lemma triangle_normal_of_rotate (p0 p1 p2 : Vec3r) :
  triangle_normal_of p1 p2 p0 = triangle_normal_of p0 p1 p2.
Proof.
  unfold triangle_normal_of.
  assert (Hrot : cross (p2 -v p1) (p0 -v p1) = cross (p1 -v p0) (p2 -v p0))
    by (apply vec3_eq; unfold cross, vsub; simpl; ring).
  rewrite Hrot. reflexivity.
Qed.

(** A matrix of non-zero determinant has at most one solution. *)
Lemma mulMV_injective (A : Matrix3) (x y : Vec3r) :
  det A <> 0 -> mulMV A x = mulMV A y -> x = y.
Proof.
  intros Hdet Heq.
  assert (Hc : forall z, cramer_solve A (mulMV A z) = z).
  { intros [z1 z2 z3]. destruct A as [[a1 a2 a3] [b1 b2 b3] [c1 c2 c3]].
    unfold det, cross, dot in Hdet; simpl in Hdet.
    unfold mulMV, cramer_solve, det, cross, dot, vadd, vscale; simpl.
    f_equal; field; exact Hdet. }
  rewrite <- (Hc x), <- (Hc y), Heq. reflexivity.
Qed.

Section TriangleBarycentric.
Context {E : Externals}.

(** The solution of the system places the point of the ray in the plane
    of the triangle. *)
Lemma triangle_solution_in_plane (this : Triangle) (ray : Ray) :
  det (triangle_system this ray) <> 0 ->
  Ray_At ray (vz (triangle_solution this ray))
  = (point0_ this
     +v vx (triangle_solution this ray) *v (point1_ this -v point0_ this)
     +v vy (triangle_solution this ray) *v (point2_ this -v point0_ this))%vec.
Proof.
  intros Hdet.
  pose proof (colPivHouseholderQr_solve_correct (triangle_system this ray)
                (triangle_rhs this ray) Hdet) as Hsol.
  fold (triangle_solution this ray) in Hsol.
  set (sol := triangle_solution this ray) in *.
  unfold mulMV, triangle_system, triangle_rhs in Hsol.
  cbn [col0 col1 col2] in Hsol.
  pose proof (f_equal vx Hsol) as Hx.
  pose proof (f_equal vy Hsol) as Hy.
  pose proof (f_equal vz Hsol) as Hz.
  unfold Ray_At. apply vec3_eq; simpl in *; lra.
Qed.

Lemma Triangle_Hit_inside_iff (this : Triangle) (ray : Ray)
  (tmin tmax : R) (h : HitRecord) :
  Triangle_invariant this ->
  dot (normal_ this) (dir_ ray) <> 0 ->
  (fst (Triangle_Hit this ray tmin tmax h) = true
   <-> tmin <= vz (triangle_solution this ray) <= tmax
       /\ 0 <= vx (triangle_solution this ray)
       /\ 0 <= vy (triangle_solution this ray)
       /\ vx (triangle_solution this ray) + vy (triangle_solution this ray)
          <= 1).
Proof.
  intros Hinv Hdot.
  set (beta := vx (triangle_solution this ray)).
  set (gamma := vy (triangle_solution this ray)).
  set (t := vz (triangle_solution this ray)).
  pose proof (triangle_system_invertible this ray Hinv Hdot) as Hdet.
  pose proof (triangle_solution_in_plane this ray Hdet) as Hplane.
  fold beta gamma t in Hplane.
  pose proof (Triangle_invariant_area this ray Hinv Hdot) as Hk.
  rewrite Triangle_Hit_unfold. cbv zeta. fold t. rewrite Hplane.
  destruct (edge_tests_in_plane (point0_ this) (point1_ this)
              (point2_ this) (normal_ this) beta gamma)
    as (He0 & He1 & He2).
  cbv zeta in He0, He1, He2. rewrite He0, He1, He2.
  set (k := dot (cross (point1_ this -v point0_ this)
                       (point2_ this -v point0_ this)) (normal_ this)) in *.
  rewrite (proj2 (Req_b_false _ _) Hdot).
  destruct (Rlt_b t tmin) eqn:Hlo;
    [apply Rlt_b_true in Hlo | apply Rlt_b_false in Hlo];
    (destruct (Rlt_b tmax t) eqn:Hhi;
     [apply Rlt_b_true in Hhi | apply Rlt_b_false in Hhi]);
    cbn [orb fst];
    try (split; [discriminate | intros; lra]).
  destruct (Rlt_b (gamma * k) 0) eqn:H0;
    [apply Rlt_b_true in H0 | apply Rlt_b_false in H0];
    [cbn [fst]; split; [discriminate | intros; nra] |].
  destruct (Rlt_b ((1 - beta - gamma) * k) 0) eqn:H1;
    [apply Rlt_b_true in H1 | apply Rlt_b_false in H1];
    [cbn [fst]; split; [discriminate | intros; nra] |].
  destruct (Rlt_b (beta * k) 0) eqn:H2;
    [apply Rlt_b_true in H2 | apply Rlt_b_false in H2];
    cbn [fst]; split; try discriminate; intros; nra.
Qed.

Lemma Triangle_Hit_true_record (this : Triangle) (ray : Ray)
  (tmin tmax : R) (h : HitRecord) :
  fst (Triangle_Hit this ray tmin tmax h) = true ->
  Triangle_Hit this ray tmin tmax h
  = (true,
     triangle_hit_record this ray (vz (triangle_solution this ray))).
Proof.
  rewrite Triangle_Hit_unfold. cbv zeta.
  repeat (match goal with
          | |- fst (if ?c then _ else _) = _ -> _ =>
            destruct c; [discriminate |]
          end).
  reflexivity.
Qed.

(** X5.  For a triangle that satisfies its invariant and a ray that is not
    parallel to its plane, the solution (beta, gamma, t) of the system
    gives the point of the ray in the plane as
    p0 + beta (p1 - p0) + gamma (p2 - p0), and Triangle.Hit returns true
    exactly when t is in [tmin, tmax] and beta >= 0, gamma >= 0,
    beta + gamma <= 1: the point lies in the triangle, edges included. *)
Theorem Triangle_Hit_barycentric (this : Triangle) (ray : Ray)
  (tmin tmax : R) (h : HitRecord) :
  Triangle_invariant this ->
  dot (normal_ this) (dir_ ray) <> 0 ->
  let beta := vx (triangle_solution this ray) in
  let gamma := vy (triangle_solution this ray) in
  let t := vz (triangle_solution this ray) in
  Ray_At ray t
  = (point0_ this +v beta *v (point1_ this -v point0_ this)
     +v gamma *v (point2_ this -v point0_ this))%vec
  /\ (fst (Triangle_Hit this ray tmin tmax h) = true
      <-> tmin <= t <= tmax
          /\ 0 <= beta /\ 0 <= gamma /\ beta + gamma <= 1).
Proof.
  intros Hinv Hdot. cbv zeta. split.
  - apply triangle_solution_in_plane.
    apply triangle_system_invertible; assumption.
  - apply Triangle_Hit_inside_iff; assumption.
Qed.

(** X6.  The stored normal depends on the winding of the three points and
    not on which of them comes first: rotating the points keeps the normal
    the constructor stores, exchanging two of them negates it; and for
    points that are not collinear it has unit length. *)
Theorem Triangle_normal_winding (p0 p1 p2 : Vec3r) (name : string) :
  normal_ (Triangle_new p1 p2 p0 name) = normal_ (Triangle_new p0 p1 p2 name)
  /\ normal_ (Triangle_new p0 p2 p1 name)
     = vneg (normal_ (Triangle_new p0 p1 p2 name))
  /\ (0 < squaredNorm (cross (p1 -v p0) (p2 -v p0))%vec ->
      norm (normal_ (Triangle_new p0 p1 p2 name)) = 1).
Proof.
  split; [| split].
  - exact (triangle_normal_of_rotate p0 p1 p2).
  - exact (triangle_normal_of_swap p0 p1 p2).
  - intros Hpos. apply norm_of_squaredNorm_1.
    exact (normalize_unit _ Hpos).
Qed.

(** X7.  Triangle.Hit does not depend on the winding: the triangle built
    from the same points with two of them exchanged is hit by the same
    rays, at the same parameter and point, and the record holds the same
    (front-facing) normal. *)
Theorem Triangle_Hit_winding (p0 p1 p2 : Vec3r) (name name' : string)
  (ray : Ray) (tmin tmax : R) (h : HitRecord) :
  let t := Triangle_new p0 p1 p2 name in
  let t' := Triangle_new p0 p2 p1 name' in
  dot (normal_ t) (dir_ ray) <> 0 ->
  fst (Triangle_Hit t' ray tmin tmax h) = fst (Triangle_Hit t ray tmin tmax h)
  /\ (fst (Triangle_Hit t ray tmin tmax h) = true ->
      ray_t_ (snd (Triangle_Hit t' ray tmin tmax h))
      = ray_t_ (snd (Triangle_Hit t ray tmin tmax h))
      /\ point_ (snd (Triangle_Hit t' ray tmin tmax h))
         = point_ (snd (Triangle_Hit t ray tmin tmax h))
      /\ hit_normal_ (snd (Triangle_Hit t' ray tmin tmax h))
         = hit_normal_ (snd (Triangle_Hit t ray tmin tmax h))).
Proof.
  intros t t' Hdot.
  assert (Hinv : Triangle_invariant t) by apply Triangle_new_invariant.
  assert (Hinv' : Triangle_invariant t') by apply Triangle_new_invariant.
  assert (Hn' : normal_ t' = vneg (normal_ t))
    by exact (triangle_normal_of_swap p0 p1 p2).
  assert (Hdot' : dot (normal_ t') (dir_ ray) <> 0)
    by (rewrite Hn', dot_vneg_l; lra).
  pose proof (triangle_system_invertible t ray Hinv Hdot) as Hdet.
  pose proof (triangle_system_invertible t' ray Hinv' Hdot') as Hdet'.
  set (s := triangle_solution t ray).
  set (s' := triangle_solution t' ray).
  assert (Hs' : s' = vec3 (vy s) (vx s) (vz s)).
  { apply (mulMV_injective (triangle_system t' ray)); [exact Hdet' |].
    unfold s'. unfold triangle_solution at 1.
    rewrite colPivHouseholderQr_solve_correct by exact Hdet'.
    pose proof (colPivHouseholderQr_solve_correct (triangle_system t ray)
                  (triangle_rhs t ray) Hdet) as Hsol.
    fold (triangle_solution t ray) in Hsol. fold s in Hsol.
    transitivity (triangle_rhs t ray); [reflexivity |].
    rewrite <- Hsol.
    unfold mulMV, triangle_system, t, t', Triangle_new,
      Triangle_ComputeNormal.
    cbn [col0 col1 col2 point0_ point1_ point2_ vx vy vz].
    apply vec3_eq; simpl; ring. }
  pose proof (Triangle_Hit_inside_iff t ray tmin tmax h Hinv Hdot) as Hiff.
  pose proof (Triangle_Hit_inside_iff t' ray tmin tmax h Hinv' Hdot')
    as Hiff'.
  fold s in Hiff. fold s' in Hiff'.
  rewrite Hs' in Hiff'. cbn [vx vy vz] in Hiff'.
  assert (Hfst : fst (Triangle_Hit t' ray tmin tmax h)
                 = fst (Triangle_Hit t ray tmin tmax h)).
  { destruct (fst (Triangle_Hit t ray tmin tmax h)) eqn:Ht.
    - apply Hiff'. destruct (proj1 Hiff eq_refl) as (? & ? & ? & ?).
      repeat split; lra.
    - destruct (fst (Triangle_Hit t' ray tmin tmax h)) eqn:Ht';
        [| reflexivity].
      destruct (proj1 Hiff' eq_refl) as (? & ? & ? & ?).
      symmetry. apply Hiff. repeat split; lra. }
  split; [exact Hfst |].
  intros Htrue. rewrite Htrue in Hfst.
  rewrite (Triangle_Hit_true_record t ray tmin tmax h Htrue).
  rewrite (Triangle_Hit_true_record t' ray tmin tmax h Hfst).
  cbn [snd]. unfold triangle_hit_record.
  cbn [ray_t_ point_ hit_normal_].
  fold s s'. rewrite Hs'. cbn [vz].
  repeat split; try reflexivity.
  rewrite Hn'. unfold oriented_normal. rewrite dot_vneg_l.
  destruct (Rlt_dec 0 (- dot (normal_ t) (dir_ ray)));
    destruct (Rlt_dec 0 (dot (normal_ t) (dir_ ray)));
    try reflexivity; try lra.
  apply vec3_eq; simpl; ring.
Qed.

End TriangleBarycentric.

Section TriangleBarycentricExample.
#[local] Existing Instance reference_externals.

Lemma example_triangle_not_parallel :
  dot (normal_ example_triangle) (dir_ example_ray_down) <> 0.
Proof.
  rewrite example_triangle_eq, example_ray_down_eq.
  unfold dot; simpl. lra.
Qed.

Lemma Triangle_Hit_barycentric_witness :
  Ray_At example_ray_down
         (vz (triangle_solution example_triangle example_ray_down))
  = (point0_ example_triangle
     +v vx (triangle_solution example_triangle example_ray_down)
        *v (point1_ example_triangle -v point0_ example_triangle)
     +v vy (triangle_solution example_triangle example_ray_down)
        *v (point2_ example_triangle -v point0_ example_triangle))%vec.
Proof.
  exact (proj1
           (Triangle_Hit_barycentric example_triangle example_ray_down 0 10
              HitRecord_empty
              (Triangle_new_invariant (vec3 0 0 0) (vec3 1 0 0) (vec3 0 1 0)
                 "tri")
              example_triangle_not_parallel)).
Defined.

Lemma Triangle_normal_winding_witness :
  norm (normal_ (Triangle_new (vec3 0 0 0) (vec3 1 0 0) (vec3 0 1 0) "tri"))
  = 1.
Proof.
  refine (proj2 (proj2
            (Triangle_normal_winding (vec3 0 0 0) (vec3 1 0 0) (vec3 0 1 0)
               "tri")) _).
  unfold squaredNorm, cross, dot, vsub; simpl. lra.
Defined.

Lemma Triangle_Hit_winding_witness :
  fst (Triangle_Hit
         (Triangle_new (vec3 0 0 0) (vec3 0 1 0) (vec3 1 0 0) "flipped")
         example_ray_down 0 10 HitRecord_empty)
  = fst (Triangle_Hit example_triangle example_ray_down 0 10
                      HitRecord_empty).
Proof.
  exact (proj1
           (Triangle_Hit_winding (vec3 0 0 0) (vec3 1 0 0) (vec3 0 1 0)
              "tri" "flipped" example_ray_down 0 10 HitRecord_empty
              example_triangle_not_parallel)).
Defined.

End TriangleBarycentricExample.

(** ** Surface lists: range, surface and order of the children *)

(** A successful list hit either copied a child's record that is nearer
    than tmax, or kept the caller's record with rayT = tmax because every
    child that hit did so at tmax or beyond. *)
Lemma SurfaceList_Hit_true_cases {E : Externals}
  (child_hit : Surface -> Ray -> R -> R -> HitRecord -> bool * HitRecord)
  (surfaces : list Surface) (ray : Ray) (tmin tmax : R)
  (h h' : HitRecord) :
  SurfaceList_Hit child_hit surfaces ray tmin tmax h = (true, h') ->
  let hs :=
    accepted_hits
      (child_results child_hit ray tmin tmax surfaces HitRecord_default) in
  (exists c, In c hs /\ ray_t_ c < tmax /\ h' = copied_record ray c)
  \/ (h' = SetRayT h tmax /\ exists c, In c hs /\ tmax <= ray_t_ c).
Proof.
  rewrite SurfaceList_Hit_fold. cbv zeta. intros [= Hex Hfold].
  set (results := child_results _ _ _ _ _ _) in *.
  destruct (nearer_or_not tmax (accepted_hits results)) as [Hall | Hnear].
  - right. rewrite fold_keep_nearer_none in Hfold by exact Hall.
    split; [symmetry; exact Hfold |].
    apply existsb_exists in Hex. destruct Hex as ([b c] & Hin & Hb).
    simpl in Hb. subst b. exists c.
    assert (Hc : In c (accepted_hits results)).
    { unfold accepted_hits. apply in_map_iff. exists (true, c).
      split; [reflexivity |]. apply filter_In. split; [exact Hin |].
      reflexivity. }
    split; [exact Hc | apply Hall, Hc].
  - left.
    destruct (fold_keep_nearer_first_min ray (accepted_hits results)
                (SetRayT h tmax) Hnear)
      as (pre & c & post & Heq & Hc & _ & _ & Hcopy).
    exists c. split; [| split].
    + rewrite Heq. apply in_or_app. right. left. reflexivity.
    + exact Hc.
    + rewrite <- Hfold. exact Hcopy.
Qed.

Section SurfaceRange.
Context {E : Externals}.

Lemma Surface_Hit_in_range (ray : Ray) (tmin tmax : R) :
  forall (s : Surface) (h h' : HitRecord),
    Surface_Hit s ray tmin tmax h = (true, h') ->
    tmin <= ray_t_ h' <= tmax
    /\ (ray_t_ h' < tmax -> surface_ h' <> None).
Proof.
  fix IH 1. intros [sp | t | name material surfaces] h h' Hhit.
  - cbn [Surface_Hit] in Hhit. rewrite Sphere_Hit_unfold in Hhit.
    destruct (Rlt_dec _ 0); [discriminate |].
    destruct (Rlt_b _ tmin) eqn:Hlo; [discriminate |].
    destruct (Rlt_b tmax _) eqn:Hhi; [discriminate |].
    apply Rlt_b_false in Hlo, Hhi. injection Hhit as <-.
    unfold sphere_hit_record. cbn [ray_t_ surface_].
    split; [lra | discriminate].
  - cbn [Surface_Hit] in Hhit.
    assert (Htrue : fst (Triangle_Hit t ray tmin tmax h) = true)
      by (rewrite Hhit; reflexivity).
    rewrite (Triangle_Hit_true_record t ray tmin tmax h Htrue) in Hhit.
    injection Hhit as <-.
    rewrite Triangle_Hit_unfold in Htrue. cbv zeta in Htrue.
    destruct (Req_b _ 0); [discriminate |].
    destruct (Rlt_b _ tmin) eqn:Hlo; [discriminate |].
    destruct (Rlt_b tmax _) eqn:Hhi; [discriminate |].
    apply Rlt_b_false in Hlo, Hhi.
    unfold triangle_hit_record. cbn [ray_t_ surface_].
    split; [lra | discriminate].
  - cbn [Surface_Hit] in Hhit.
    assert (Hchildren :
              forall surface b c,
                In surface surfaces ->
                Surface_Hit surface ray tmin tmax b = (true, c) ->
                tmin <= ray_t_ c <= tmax
                /\ (ray_t_ c < tmax -> surface_ c <> None)).
    { clear h h' Hhit.
      induction surfaces as [| x rest IHl]; intros surface b c Hin.
      - destruct Hin.
      - destruct Hin as [<- | Hin].
        + apply (IH x b c).
        + apply (IHl surface b c Hin). }
    destruct (SurfaceList_Hit_true_cases Surface_Hit surfaces ray tmin tmax
                h h' Hhit)
      as [(c & Hin & Hc & ->) | (-> & c & Hin & Hc)];
      destruct (accepted_hits_from_child Surface_Hit ray tmin tmax surfaces
                  HitRecord_default c Hin) as (surface & b & Hs & Hb);
      destruct (Hchildren surface b c Hs Hb) as [Hrange Hsurf].
    + unfold copied_record. cbn [ray_t_ surface_].
      split; [lra | intros _; apply Hsurf, Hc].
    + cbn [SetRayT ray_t_]. split; [lra | intros; lra].
Qed.

(** X10.  Whatever the scene, a successful Hit leaves a rayT inside the
    tested range [tmin, tmax], and a non-null surface whenever that rayT
    is below tmax. *)
Theorem Surface_Hit_range (s : Surface) (ray : Ray) (tmin tmax : R)
  (h : HitRecord) :
  fst (Surface_Hit s ray tmin tmax h) = true ->
  tmin <= ray_t_ (snd (Surface_Hit s ray tmin tmax h)) <= tmax
  /\ (ray_t_ (snd (Surface_Hit s ray tmin tmax h)) < tmax ->
      surface_ (snd (Surface_Hit s ray tmin tmax h)) <> None).
Proof.
  destruct (Surface_Hit s ray tmin tmax h) as [hit h'] eqn:Hhit.
  cbn [fst snd]. intros ->.
  exact (Surface_Hit_in_range ray tmin tmax s h h' Hhit).
Qed.

(** X12.  RayColor dereferences the surface of the hit record only when it
    is there, unless the scene reports its hit at exactly [kInfinity]: a
    result [None] means that Hit returned true with a null surface and
    rayT = kInfinity.  For a hit below [kInfinity] RayColor returns a
    colour. *)
Theorem RayColor_defined (ray : Ray) (scene : Surface)
  (lights : list Light) :
  let r := Surface_Hit scene ray kEpsilon kInfinity HitRecord_default in
  (RayColor ray scene lights = None ->
   fst r = true /\ surface_ (snd r) = None /\ ray_t_ (snd r) = kInfinity)
  /\ (ray_t_ (snd r) < kInfinity ->
      exists hit color, RayColor ray scene lights = Some (hit, color)).
Proof.
  cbv zeta. unfold RayColor.
  destruct (Surface_Hit scene ray kEpsilon kInfinity HitRecord_default)
    as [hit h'] eqn:Hhit.
  cbn [fst snd]. destruct hit; cbn [negb].
  - destruct (Surface_Hit_in_range ray kEpsilon kInfinity scene
                HitRecord_default h' Hhit) as [Hrange Hsurf].
    destruct (surface_ h') as [surface |] eqn:Hs.
    + split.
      * destruct (dynamic_pointer_cast_PhongMaterial _); [| discriminate].
        destruct (String.eqb _ _); discriminate.
      * intros _.
        destruct (dynamic_pointer_cast_PhongMaterial _);
          [destruct (String.eqb _ _) |]; eexists; eexists; reflexivity.
    + split.
      * intros _. repeat split.
        destruct (Rlt_dec (ray_t_ h') kInfinity) as [Hlt | Hge]; [| lra].
        contradiction (Hsurf Hlt). reflexivity.
      * intros Hlt. contradiction (Hsurf Hlt). reflexivity.
  - split; [discriminate |]. intros _. eexists; eexists; reflexivity.
Qed.

End SurfaceRange.

(** The example scene seen along the example ray, with room behind the
    hit: the list returns the sphere's record. *)
Lemma example_scene_hit {E : Externals} (tmin tmax : R) (h : HitRecord) :
  tmin <= 2 < tmax ->
  Surface_Hit example_scene example_ray tmin tmax h
  = (true,
     mkHitRecord 2 (vec3 0 0 2) (vec3 0 0 (-1))
                 (Some (SphereS example_sphere))).
Proof.
  intros Hr. unfold example_scene, example_sphere. cbn [Surface_Hit].
  rewrite SurfaceList_Hit_fold. cbn [child_results].
  cbn [Surface_Hit]. rewrite example_sphere_hit by lra.
  unfold accepted_hits. cbn [existsb filter map fst snd fold_left orb].
  rewrite keep_nearer_copies by (simpl; lra).
  unfold copied_record. cbn [ray_t_ point_ hit_normal_ surface_].
  f_equal. f_equal. unfold oriented_normal.
  destruct (Rlt_dec _ _) as [Hlt | _]; [| reflexivity].
  rewrite example_ray_eq in Hlt. unfold dot in Hlt; simpl in Hlt. lra.
Qed.

Section SurfaceListExtraWitnesses.
#[local] Existing Instance reference_externals.

Lemma example_dir_nonzero :
  dot (dir_ example_ray) (dir_ example_ray) <> 0.
Proof. rewrite example_ray_eq. unfold dot; simpl. lra. Qed.


Lemma Surface_Hit_front_facing_unit_witness :
  front_facing_unit example_ray
    (mkHitRecord 2 (vec3 0 0 2) (vec3 0 0 (-1))
                 (Some (SphereS example_sphere))).
Proof.
  refine (Surface_Hit_front_facing_unit example_ray 0 10 example_dir_nonzero
            example_scene HitRecord_empty _ _ _ _).
  - simpl. split; [lra | exact I].
  - apply example_scene_hit. lra.
  - simpl. lra.
Defined.

Lemma Surface_Hit_range_witness :
  0 <= ray_t_ (snd (Surface_Hit example_scene example_ray 0 10
                                HitRecord_empty)) <= 10.
Proof.
  refine (proj1
            (Surface_Hit_range example_scene example_ray 0 10
               HitRecord_empty _)).
  rewrite example_scene_hit by lra. reflexivity.
Defined.

Lemma RayColor_defined_witness :
  exists hit color,
    RayColor example_ray example_scene [] = Some (hit, color).
Proof.
  refine (proj2 (RayColor_defined example_ray example_scene []) _).
  rewrite example_scene_hit by (simpl; lra). simpl. lra.
Defined.


End SurfaceListExtraWitnesses.

(** ** Surface lists: the order of the children *)

Lemma keep_nearer_ray_t (ray : Ray) (stored c : HitRecord) :
  ray_t_ (keep_nearer ray stored c) = Rmin (ray_t_ stored) (ray_t_ c).
Proof.
  unfold keep_nearer, Rmin.
  destruct (Rlt_dec _ _), (Rle_dec _ _); cbn [copied_record ray_t_]; lra.
Qed.

Lemma fold_keep_nearer_ray_t (ray : Ray) (hs : list HitRecord) :
  forall stored,
    ray_t_ (fold_left (keep_nearer ray) hs stored)
    = fold_left (fun m c => Rmin m (ray_t_ c)) hs (ray_t_ stored).
Proof.
  induction hs as [| c rest IH]; intros stored; [reflexivity |].
  cbn [fold_left]. rewrite IH, keep_nearer_ray_t. reflexivity.
Qed.

Lemma fold_Rmin_Permutation (hs hs' : list HitRecord) :
  Permutation hs hs' ->
  forall m,
    fold_left (fun m c => Rmin m (ray_t_ c)) hs m
    = fold_left (fun m c => Rmin m (ray_t_ c)) hs' m.
Proof.
  induction 1 as [| c l l' _ IH | c c' l | l l' l'' _ IH1 _ IH2];
    intros m; cbn [fold_left].
  - reflexivity.
  - apply IH.
  - f_equal. unfold Rmin. repeat destruct (Rle_dec _ _); lra.
  - rewrite IH1. apply IH2.
Qed.

Lemma existsb_accepted (results : list (bool * HitRecord)) :
  existsb fst results
  = match accepted_hits results with [] => false | _ :: _ => true end.
Proof.
  induction results as [| [b c] rest IH]; [reflexivity |].
  unfold accepted_hits in *. cbn [existsb filter fst].
  destruct b; [reflexivity | exact IH].
Qed.

Section ChildOrder.
Context {E : Externals}.
Variables (ray : Ray) (tmin tmax : R).

(** What a sphere or a triangle returns does not depend on the record it
    is handed, except that a miss hands that record back. *)
Lemma flat_surface_hit (s : Surface) (b : HitRecord) :
  flat_surface s ->
  Surface_Hit s ray tmin tmax b
  = match hit_of ray tmin tmax s with
    | c :: _ => (true, c)
    | [] => (false, b)
    end.
Proof.
  unfold hit_of. destruct s as [sp | t | n m l]; [| | contradiction];
    intros _; cbn [Surface_Hit].
  - rewrite !Sphere_Hit_unfold.
    destruct (Rlt_dec _ 0); [reflexivity |].
    destruct (_ || _); reflexivity.
  - rewrite !Triangle_Hit_unfold. cbv zeta.
    repeat (match goal with
            | |- context [if ?c then _ else _] => destruct c
            end; try reflexivity).
Qed.

Lemma flat_accepted_hits (surfaces : list Surface) :
  Forall flat_surface surfaces ->
  forall best,
    accepted_hits (child_results Surface_Hit ray tmin tmax surfaces best)
    = flat_map (hit_of ray tmin tmax) surfaces.
Proof.
  induction 1 as [| s rest Hs _ IH]; intros best; [reflexivity |].
  unfold accepted_hits in *. cbn [child_results flat_map filter].
  rewrite (flat_surface_hit s best Hs).
  destruct (hit_of ray tmin tmax s) as [| c cs] eqn:Hh.
  - cbn [fst snd map app]. apply IH.
  - cbn [fst snd map]. rewrite IH.
    assert (cs = []) as ->; [| reflexivity].
    unfold hit_of in Hh. destruct (fst _); [| discriminate].
    injection Hh as _ <-. reflexivity.
Qed.

(** X9.  For a list of spheres and triangles, whether the list is hit and
    the rayT it reports do not depend on the order of the children. *)
Theorem SurfaceList_Hit_Permutation (surfaces surfaces' : list Surface)
  (h : HitRecord) :
  Forall flat_surface surfaces ->
  Permutation surfaces surfaces' ->
  fst (SurfaceList_Hit Surface_Hit surfaces' ray tmin tmax h)
  = fst (SurfaceList_Hit Surface_Hit surfaces ray tmin tmax h)
  /\ ray_t_ (snd (SurfaceList_Hit Surface_Hit surfaces' ray tmin tmax h))
     = ray_t_ (snd (SurfaceList_Hit Surface_Hit surfaces ray tmin tmax h)).
Proof.
  intros Hflat Hperm.
  assert (Hflat' : Forall flat_surface surfaces').
  { apply Forall_forall. intros s Hin.
    apply (proj1 (Forall_forall _ _) Hflat).
    apply (Permutation_in s (Permutation_sym Hperm) Hin). }
  rewrite !SurfaceList_Hit_fold. cbv zeta. cbn [fst snd].
  rewrite !existsb_accepted, !fold_keep_nearer_ray_t.
  rewrite (flat_accepted_hits surfaces Hflat),
    (flat_accepted_hits surfaces' Hflat').
  pose proof (Permutation_flat_map (hit_of ray tmin tmax) Hperm) as Hp.
  split.
  - destruct (flat_map (hit_of ray tmin tmax) surfaces) as [| c cs] eqn:H1;
      destruct (flat_map (hit_of ray tmin tmax) surfaces')
        as [| c' cs'] eqn:H2;
      try reflexivity.
    + apply Permutation_nil in Hp. discriminate.
    + apply Permutation_sym, Permutation_nil in Hp. discriminate.
  - symmetry. apply fold_Rmin_Permutation, Hp.
Qed.

End ChildOrder.

Section ChildOrderExample.
#[local] Existing Instance reference_externals.

Lemma SurfaceList_Hit_Permutation_witness :
  fst (SurfaceList_Hit Surface_Hit
         [TriangleS example_triangle; SphereS example_sphere] example_ray
         0 10 HitRecord_empty)
  = fst (SurfaceList_Hit Surface_Hit
           [SphereS example_sphere; TriangleS example_triangle] example_ray
           0 10 HitRecord_empty).
Proof.
  refine (proj1
            (SurfaceList_Hit_Permutation example_ray
               0 10 [SphereS example_sphere; TriangleS example_triangle]
               [TriangleS example_triangle; SphereS example_sphere]
               HitRecord_empty _ _)).
  - repeat constructor.
  - apply perm_swap.
Defined.

End ChildOrderExample.

(** ** Lights and material *)


Section LightProperties.
Context {E : Externals}.


(** X15.  What a light contributes is additive in its colour: a point
    light of intensity i1 + i2 contributes the sum of what point lights of
    intensities i1 and i2 at the same position contribute, and likewise
    for the colour of an ambient light. *)
Theorem Light_Illuminate_additive (position i1 i2 : Vec3r)
  (n n1 n2 : string) (h : HitRecord) (view_vec : Vec3r) :
  PointLight_Illuminate (mkPointLight position (i1 +v i2)%vec n) h view_vec
  = (PointLight_Illuminate (mkPointLight position i1 n1) h view_vec
     +v PointLight_Illuminate (mkPointLight position i2 n2) h view_vec)%vec
  /\ AmbientLight_Illuminate (mkAmbientLight (i1 +v i2)%vec n) h view_vec
     = (AmbientLight_Illuminate (mkAmbientLight i1 n1) h view_vec
        +v AmbientLight_Illuminate (mkAmbientLight i2 n2) h view_vec)%vec.
Proof.
  unfold PointLight_Illuminate, AmbientLight_Illuminate.
  cbn [position_ intensity_ light_ambient_].
  destruct (surface_ h) as [s |];
    [| split; apply vec3_eq; simpl; ring].
  destruct (dynamic_pointer_cast_PhongMaterial _) as [m |];
    [| split; apply vec3_eq; simpl; ring].
  destruct (negb _); split; apply vec3_eq;
    unfold vdivs, vmuls, vadd, Rdiv; simpl; ring.
Qed.


End LightProperties.

Section LightExamples.
#[local] Existing Instance reference_externals.



End LightExamples.

(** ** Ray construction *)

(** X1.  [Ray::Ray] stores the origin and a direction of unit length for
    every non-zero input direction, and the ray depends on the input
    direction only up to a positive factor. *)
Theorem Ray_new_direction (origin dir : Vec3r) :
  origin_ (Ray_new origin dir) = origin
  /\ (0 < squaredNorm dir -> norm (dir_ (Ray_new origin dir)) = 1)
  /\ (forall k, 0 < k -> Ray_new origin (k *v dir)%vec = Ray_new origin dir).
Proof.
  split; [reflexivity | split].
  - intros Hpos. apply norm_of_squaredNorm_1.
    exact (normalize_unit dir Hpos).
  - intros k Hk. unfold Ray_new. f_equal.
    exact (normalize_vscale_pos k dir Hk).
Qed.

Lemma Ray_new_direction_witness :
  norm (dir_ (Ray_new (vec3 0 0 0) (vec3 0 0 2))) = 1.
Proof.
  refine (proj1 (proj2 (Ray_new_direction (vec3 0 0 0) (vec3 0 0 2))) _).
  unfold squaredNorm, dot; simpl. lra.
Defined.

(** ** The progress counter *)

Open Scope Z_scope.

Lemma RenderProgressInc_below (p : Progress) :
  0 <= progress_bar_done_pixels_ p ->
  progress_bar_done_pixels_ p < 2 ^ 64 - 1 ->
  progress_bar_done_pixels_ (RenderProgressIncDonePixels p)
  = Z.min (progress_bar_done_pixels_ p + 1) (progress_bar_total_pixels_ p).
Proof.
  intros H0 H1. unfold RenderProgressIncDonePixels, size_t_of.
  cbn [progress_bar_done_pixels_]. rewrite Z.mod_small by lia.
  reflexivity.
Qed.

(** X21.  After [RenderProgressStart(total)] and [n] calls of
    [RenderProgressIncDonePixels], the counter of done pixels is
    min(n, total): it counts the calls and stops at the total, for every
    total below 2^64 - 1.  Neither call changes the total, and the counter
    is kept by [RenderProgressEnd], which drops the bar. *)
Theorem RenderProgress_counts (p : Progress) (total : Z) (n : nat) :
  0 <= total < 2 ^ 64 - 1 ->
  let q := Nat.iter n RenderProgressIncDonePixels
             (RenderProgressStart p total) in
  progress_bar_done_pixels_ q = Z.min (Z.of_nat n) total
  /\ progress_bar_total_pixels_ q = total
  /\ progress_bar_ q = true
  /\ RenderProgressEnd q
     = mkProgress false (Z.min (Z.of_nat n) total) total.
Proof.
  intros Htotal. cbv zeta.
  induction n as [| n IH].
  - cbn [Nat.iter RenderProgressStart].
    cbn. repeat split; try reflexivity; rewrite Z.min_l by lia; reflexivity.
  - destruct IH as (Hd & Ht & Hb & _).
    cbn [Nat.iter].
    set (q := Nat.iter n RenderProgressIncDonePixels
                (RenderProgressStart p total)) in *.
    assert (Hd' : progress_bar_done_pixels_ (RenderProgressIncDonePixels q)
                  = Z.min (Z.of_nat (S n)) total).
    { rewrite RenderProgressInc_below by (rewrite Hd; lia).
      rewrite Hd, Ht. lia. }
    assert (Ht' : progress_bar_total_pixels_ (RenderProgressIncDonePixels q)
                  = total) by exact Ht.
    split; [exact Hd' | split; [exact Ht' | split; [exact Hb |]]].
    unfold RenderProgressEnd. f_equal; assumption.
Qed.

Close Scope Z_scope.

(** ** RaytraParser *)

Section ParserProperties.
Context {CE : CameraExternals} {PE : ParserExternals}.

Lemma parse_lines_app (st : ParseState) (pre post : list Line) :
  parse_lines st (pre ++ post)
  = (let (ok, st') := parse_lines st pre in
     if ok then parse_lines st' post else (false, st')).
Proof.
  revert st. induction pre as [| l pre IH]; intros st; [reflexivity |].
  cbn [app parse_lines]. destruct (parse_line st l) as [ok st'].
  destruct ok; [apply IH | reflexivity].
Qed.

Lemma count_lines_cons (f : Line -> bool) (l : Line) (rest : list Line) :
  count_lines f (l :: rest)
  = ((if f l then 1 else 0) + count_lines f rest)%Z.
Proof.
  unfold count_lines. cbn [filter]. destruct (f l); cbn [List.length]; lia.
Qed.

(** What one line that does not make the function return has done. *)
Lemma parse_line_ok (st st1 : ParseState) (l : Line) :
  parse_line st l = (true, st1) ->
  camera_count st1
  = (camera_count st + (if is_camera_line l then 1 else 0))%Z
  /\ ambient_light_count st1
     = (ambient_light_count st + (if is_ambient_line l then 1 else 0))%Z
  /\ parsed_lights st1 = parsed_lights st ++ lights_of_line l
  /\ Z.of_nat (List.length (surface_list st1))
     = (Z.of_nat (List.length (surface_list st))
        + (if is_surface_line l then 1 else 0))%Z
  /\ (material_from_line st ->
      Forall parsed_surface (surface_list st) ->
      material_from_line st1 /\ Forall parsed_surface (surface_list st1))
  /\ (parsed_camera st <> None \/ is_camera_line l = true ->
      parsed_camera st1 <> None)
  /\ (is_material_line l = false ->
      current_material st1 = current_material st).
Proof.
  intros H1.
  assert (Hnew : forall s,
             parsed_surface s ->
             Forall parsed_surface (surface_list st) ->
             Forall parsed_surface (surface_list st ++ [s])).
  { intros s Hs Hall. apply Forall_app. split; [exact Hall |].
    constructor; [exact Hs | constructor]. }
  destruct l; cbn [parse_line] in H1;
    cbn [is_camera_line is_ambient_line is_surface_line is_material_line
         lights_of_line];
    try (destruct (current_material st) as [m |] eqn:Hm; [| discriminate]);
    try (destruct (_ || _); [discriminate |]);
    injection H1 as <-;
    cbn [camera_count ambient_light_count parsed_lights surface_list
         parsed_camera current_material];
    rewrite ?length_app, ?app_nil_r; cbn [List.length];
    (split; [lia | split; [lia | split; [reflexivity | split; [lia |]]]]);
    (split;
     [ try (intros Hmat Hall; split; [exact Hmat | exact Hall])
     | split;
       [ try (intros [Hx | Hx]; [exact Hx | discriminate]);
         try (intros _; discriminate)
       | try (intros _; reflexivity); try discriminate ] ]).
  - intros Hmat Hall. split.
    + intros m' [= <-]. apply Hmat, Hm.
    + apply Hnew; [| exact Hall]. split; [exact I |]. exists m.
      split; [reflexivity | apply Hmat, Hm].
  - intros Hmat Hall. split.
    + intros m' [= <-]. apply Hmat, Hm.
    + apply Hnew; [| exact Hall]. split; [exact I |]. exists m.
      split; [reflexivity | apply Hmat, Hm].
  - intros _ Hall. split; [| exact Hall].
    intros m' [= <-]. split; reflexivity.
Qed.

(** A line that makes the function return false changes nothing. *)
Lemma parse_line_abort (st st1 : ParseState) (l : Line) :
  parse_line st l = (false, st1) -> st1 = st.
Proof.
  destruct l; cbn [parse_line]; intros H1; try discriminate.
  - destruct (current_material st); [discriminate |].
    injection H1 as <-. reflexivity.
  - destruct (_ || _); [| discriminate]. injection H1 as <-. reflexivity.
  - destruct (current_material st); [discriminate |].
    injection H1 as <-. reflexivity.
Qed.

(** Lines other than material lines leave [current_material] as it is. *)
Lemma parse_lines_no_material (lines : list Line) :
  Forall (fun l => is_material_line l = false) lines ->
  forall st ok st',
    parse_lines st lines = (ok, st') ->
    current_material st' = current_material st.
Proof.
  induction 1 as [| l rest Hl _ IH]; intros st ok st' Hp.
  - injection Hp as _ <-. reflexivity.
  - cbn [parse_lines] in Hp.
    destruct (parse_line st l) as [ok1 st1] eqn:H1. destruct ok1.
    + rewrite (IH st1 ok st' Hp).
      apply (parse_line_ok st st1 l H1). exact Hl.
    + injection Hp as _ <-.
      rewrite (parse_line_abort st st1 l H1). reflexivity.
Qed.

(** X22.  A sphere or triangle line with no material line before it makes
    ParseFile return false, whatever follows, and the scene is not
    assigned. *)
Theorem ParseLines_surface_before_material (pre post : list Line)
  (l : Line) (lights : list Light) (camera : option Camera)
  (image_size : Z * Z) :
  Forall (fun x => is_material_line x = false) pre ->
  is_surface_line l = true ->
  result_ok (ParseLines (pre ++ l :: post) lights camera image_size) = false
  /\ result_scene (ParseLines (pre ++ l :: post) lights camera image_size)
     = None.
Proof.
  intros Hpre Hl. unfold ParseLines. rewrite parse_lines_app.
  destruct (parse_lines (mkParseState 0 0 0 None [] lights camera image_size)
              pre) as [ok st'] eqn:Hp.
  pose proof (parse_lines_no_material pre Hpre _ _ _ Hp) as Hm.
  cbn [current_material] in Hm.
  destruct ok; [| split; reflexivity].
  cbn [parse_lines].
  assert (Habort : parse_line st' l = (false, st')).
  { destruct l; try discriminate Hl; cbn [parse_line]; rewrite Hm;
      reflexivity. }
  rewrite Habort. split; reflexivity.
Qed.

(** What a run of the loop that does not return false has done. *)
Lemma parse_lines_ok (lines : list Line) :
  forall st st',
    parse_lines st lines = (true, st') ->
    camera_count st' = (camera_count st + count_lines is_camera_line lines)%Z
    /\ ambient_light_count st'
       = (ambient_light_count st + count_lines is_ambient_line lines)%Z
    /\ parsed_lights st' = parsed_lights st ++ flat_map lights_of_line lines
    /\ Z.of_nat (List.length (surface_list st'))
       = (Z.of_nat (List.length (surface_list st))
          + count_lines is_surface_line lines)%Z
    /\ (material_from_line st ->
        Forall parsed_surface (surface_list st) ->
        Forall parsed_surface (surface_list st'))
    /\ (parsed_camera st <> None
        \/ (0 < count_lines is_camera_line lines)%Z ->
        parsed_camera st' <> None).
Proof.
  induction lines as [| l rest IH]; intros st st' Hp.
  - injection Hp as <-. unfold count_lines. cbn. rewrite app_nil_r.
    repeat split; try lia; try tauto. intros [H | H]; [exact H | lia].
  - cbn [parse_lines] in Hp.
    destruct (parse_line st l) as [ok1 st1] eqn:H1.
    destruct ok1; [| discriminate].
    destruct (IH st1 st' Hp) as (Hc & Ha & Hl & Hs & Hf & Hcam).
    destruct (parse_line_ok st st1 l H1)
      as (Hc1 & Ha1 & Hl1 & Hs1 & Hf1 & Hcam1 & _).
    rewrite !count_lines_cons. cbn [flat_map].
    rewrite Hc, Ha, Hl, Hs, Hc1, Ha1, Hl1, Hs1, app_assoc.
    repeat split; try lia.
    + intros Hm Hall. destruct (Hf1 Hm Hall) as [Hm1 Hall1].
      exact (Hf Hm1 Hall1).
    + intros Hor. apply Hcam.
      destruct (is_camera_line l) eqn:Hcl.
      * left. apply Hcam1. right. reflexivity.
      * destruct Hor as [H | H]; [left; apply Hcam1; left; exact H |].
        right. lia.
Qed.

(** A successful run: the loop did not return, and the two final checks
    passed. *)
Lemma ParseLines_true (lines : list Line) (lights : list Light)
  (camera : option Camera) (image_size : Z * Z) :
  result_ok (ParseLines lines lights camera image_size) = true ->
  exists st',
    parse_lines (mkParseState 0 0 0 None [] lights camera image_size) lines
    = (true, st')
    /\ (ambient_light_count st' <= 1)%Z
    /\ camera_count st' = 1%Z
    /\ ParseLines lines lights camera image_size
       = mkParseResult true (Some (SurfaceList_new (surface_list st') ""))
           (parsed_lights st') (parsed_camera st') (parsed_image_size st').
Proof.
  unfold ParseLines.
  destruct (parse_lines (mkParseState 0 0 0 None [] lights camera image_size)
              lines) as [ok st'] eqn:Hp.
  destruct ok; cbn [negb]; [| discriminate].
  destruct (1 <? ambient_light_count st')%Z eqn:Hamb; [discriminate |].
  destruct (camera_count st' =? 1)%Z eqn:Hcc; cbn [negb]; [| discriminate].
  apply Z.ltb_ge in Hamb. apply Z.eqb_eq in Hcc.
  intros _. exists st'. repeat split; assumption.
Qed.


End ParserProperties.

(** A sphere or triangle that is hit stores itself in the record. *)
Lemma flat_hit_surface {E : Externals} (s : Surface) (ray : Ray)
  (tmin tmax : R) (b c : HitRecord) :
  flat_surface s ->
  Surface_Hit s ray tmin tmax b = (true, c) ->
  surface_ c = Some s.
Proof.
  destruct s as [sp | t | n m l]; [| | contradiction]; intros _;
    cbn [Surface_Hit]; intros Hhit.
  - rewrite Sphere_Hit_unfold in Hhit.
    destruct (Rlt_dec _ 0); [discriminate |].
    destruct (_ || _); [discriminate |].
    injection Hhit as <-. reflexivity.
  - assert (Htrue : fst (Triangle_Hit t ray tmin tmax b) = true)
      by (rewrite Hhit; reflexivity).
    rewrite (Triangle_Hit_true_record t ray tmin tmax b Htrue) in Hhit.
    injection Hhit as <-. reflexivity.
Qed.

Section ParsedScene.
Context {E : Externals} {CE : CameraExternals} {PE : ParserExternals}.

(** X24.  In a scene ParseFile has built, every hit below [kInfinity] is
    on a surface whose material the lights accept, with an ambient
    coefficient equal to its diffuse colour: RayColor returns the sum of
    the lights' contributions, never the diagnostic colour. *)
Theorem ParseLines_scene_shaded (lines : list Line) (lights : list Light)
  (camera : option Camera) (image_size : Z * Z) (scene : Surface)
  (ray : Ray) (scene_lights : list Light) :
  result_ok (ParseLines lines lights camera image_size) = true ->
  result_scene (ParseLines lines lights camera image_size) = Some scene ->
  let r := Surface_Hit scene ray kEpsilon kInfinity HitRecord_default in
  fst r = true ->
  ray_t_ (snd r) < kInfinity ->
  (exists m,
      compatible_material (surface_ (snd r)) = Some m
      /\ ambient_ m = diffuse_ m)
  /\ RayColor ray scene scene_lights
     = Some (true,
             sum_colors
               (map (fun light =>
                       Light_Illuminate light (snd r) (vneg (dir_ ray)))
                    scene_lights)).
Proof.
  intros Hok Hscene.
  destruct (ParseLines_true lines lights camera image_size Hok)
    as (st' & Hp & _ & _ & Hres).
  rewrite Hres in Hscene. cbn [result_scene] in Hscene.
  injection Hscene as <-.
  destruct (parse_lines_ok lines _ _ Hp) as (_ & _ & _ & _ & Hf & _).
  assert (Hall : Forall parsed_surface (surface_list st')).
  { apply Hf; [intros m; discriminate | constructor]. }
  clear Hf Hp Hres Hok.
  cbv zeta. unfold SurfaceList_new. cbn [Surface_Hit].
  destruct (SurfaceList_Hit Surface_Hit (surface_list st') ray kEpsilon
              kInfinity HitRecord_default) as [hit h'] eqn:Hhit.
  cbn [fst snd]. intros -> Hlt.
  destruct (SurfaceList_Hit_copied Surface_Hit (surface_list st') ray
              kEpsilon kInfinity HitRecord_default h' Hhit Hlt)
    as (c & Hin & _ & ->).
  destruct (accepted_hits_from_child Surface_Hit ray kEpsilon kInfinity
              (surface_list st') HitRecord_default c Hin)
    as (child & b & Hchild & Hb).
  destruct (proj1 (Forall_forall _ _) Hall child Hchild)
    as (Hflat & m & Hmat & Hname & Hamb).
  assert (Hc : compatible_material (surface_ (copied_record ray c))
               = Some m).
  { unfold copied_record. cbn [surface_].
    rewrite (flat_hit_surface child ray kEpsilon kInfinity b c Hflat Hb).
    unfold compatible_material. rewrite Hmat. cbn.
    rewrite Hname. reflexivity. }
  split; [exists m; split; assumption |].
  pose proof (RayColor_hit_compatible ray
                (SurfaceListS (default_name "" "SurfaceList") None
                   (surface_list st'))
                scene_lights m) as Hr.
  cbn [Surface_Hit] in Hr. rewrite Hhit in Hr.
  apply Hr; [reflexivity | exact Hc].
Qed.

End ParsedScene.

Section ParserExamples.
#[local] Existing Instance reference_externals.
#[local] Existing Instance reference_camera_externals.
#[local] Existing Instance reference_parser_externals.

Lemma Rle_b_false (a b : R) : b < a -> Rle_b a b = false.
Proof. intros H. unfold Rle_b. destruct (Rle_dec a b); [lra | reflexivity]. Qed.

Lemma ParseLines_surface_before_material_witness :
  result_ok (ParseLines ([LineSkipped] ++ LineSphere 0 0 3 1 :: example_file)
                        [] None (0, 0)%Z) = false.
Proof.
  refine (proj1
            (ParseLines_surface_before_material [LineSkipped] example_file
               (LineSphere 0 0 3 1) [] None (0, 0)%Z _ _)).
  - constructor; [reflexivity | constructor].
  - reflexivity.
Defined.

(** The example file parses. *)
Lemma example_file_parses :
  exists camera image_size,
    ParseLines example_file [] None (0, 0)%Z
    = mkParseResult true (Some example_parsed_scene)
        [AmbientLightL (mkAmbientLight (vec3 (1 / 5) (1 / 5) (1 / 5)) "")]
        (Some camera) image_size.
Proof.
  unfold ParseLines, example_file.
  cbn [parse_lines parse_line current_material].
  rewrite Rle_b_false by lra.
  cbn [isfinite negb orb]. cbn.
  eexists. eexists. reflexivity.
Qed.


End ParserExamples.

(** Any unit sphere around (0,0,3) is hit by the example ray at t = 2. *)
Lemma unit_sphere_at_3_hit (name : string) (m : option Material)
  (tmin tmax : R) (h : HitRecord) :
  tmin <= 2 <= tmax ->
  Sphere_Hit (mkSphere (vec3 0 0 3) 1 name m) example_ray tmin tmax h
  = (true,
     mkHitRecord 2 (vec3 0 0 2) (vec3 0 0 (-1))
                 (Some (SphereS (mkSphere (vec3 0 0 3) 1 name m)))).
Proof.
  intros Hr.
  pose proof (example_sphere_hit m tmin tmax h Hr) as Hex.
  rewrite Sphere_Hit_unfold in Hex |- *.
  change (sphere_discriminant (mkSphere (vec3 0 0 3) 1 name m) example_ray)
    with (sphere_discriminant (example_sphere_with m) example_ray).
  change (sphere_smaller_root (mkSphere (vec3 0 0 3) 1 name m) example_ray)
    with (sphere_smaller_root (example_sphere_with m) example_ray).
  destruct (Rlt_dec _ 0); [discriminate |].
  destruct (_ || _); [discriminate |].
  apply (f_equal snd) in Hex. cbn [snd] in Hex. f_equal.
  unfold sphere_hit_record in *. cbn [center_] in *.
  pose proof (f_equal ray_t_ Hex) as Ht.
  pose proof (f_equal point_ Hex) as Hp.
  pose proof (f_equal hit_normal_ Hex) as Hn.
  cbn [ray_t_ point_ hit_normal_] in Ht, Hp, Hn.
  f_equal; assumption.
Qed.

Section ParsedSceneExample.
#[local] Existing Instance reference_externals.
#[local] Existing Instance reference_camera_externals.
#[local] Existing Instance reference_parser_externals.

Lemma example_parsed_scene_hit :
  Surface_Hit example_parsed_scene example_ray kEpsilon kInfinity
              HitRecord_default
  = (true,
     copied_record example_ray
       (mkHitRecord 2 (vec3 0 0 2) (vec3 0 0 (-1))
                    (Some (SphereS example_parsed_sphere)))).
Proof.
  unfold example_parsed_scene, example_parsed_sphere.
  cbn [Surface_Hit]. rewrite SurfaceList_Hit_fold.
  cbn [child_results Surface_Hit].
  rewrite unit_sphere_at_3_hit by (simpl; lra).
  unfold accepted_hits. cbn [existsb filter map fst snd fold_left orb].
  rewrite keep_nearer_copies by (simpl; lra). reflexivity.
Qed.

Lemma ParseLines_scene_shaded_witness :
  exists color,
    result_scene (ParseLines example_file [] None (0, 0)%Z)
    = Some example_parsed_scene
    /\ RayColor example_ray example_parsed_scene
         (flat_map lights_of_line example_file)
       = Some (true, color).
Proof.
  destruct example_file_parses as (camera & image_size & Hparse).
  assert (Hok : result_ok (ParseLines example_file [] None (0, 0)%Z) = true)
    by (rewrite Hparse; reflexivity).
  assert (Hscene : result_scene (ParseLines example_file [] None (0, 0)%Z)
                   = Some example_parsed_scene)
    by (rewrite Hparse; reflexivity).
  eexists. split; [exact Hscene |].
  refine (proj2
            (ParseLines_scene_shaded example_file [] None (0, 0)%Z
               example_parsed_scene example_ray
               (flat_map lights_of_line example_file) Hok Hscene _ _)).
  - rewrite example_parsed_scene_hit. reflexivity.
  - rewrite example_parsed_scene_hit. simpl. lra.
Defined.

End ParsedSceneExample.

Lemma RenderProgress_counts_witness :
  progress_bar_done_pixels_
    (Nat.iter 10 RenderProgressIncDonePixels
       (RenderProgressStart (mkProgress false 0 0) 6))
  = Z.min (Z.of_nat 10) 6.
Proof.
  refine (proj1
            (RenderProgress_counts (mkProgress false 0 0) 6 10 _)).
  split; [discriminate | reflexivity].
Defined.

Lemma Sphere_Hit_through_center_witness :
  Sphere_Hit example_sphere example_ray 0 10 HitRecord_empty
  = (true,
     sphere_hit_record example_sphere example_ray
                       (3 - radius_ example_sphere))
  /\ norm (Ray_At example_ray (3 - radius_ example_sphere)
           -v center_ example_sphere)%vec
     = radius_ example_sphere.
Proof.
  refine (Sphere_Hit_through_center example_sphere example_ray 3 10
            HitRecord_empty _ _ _ _).
  - rewrite example_ray_eq. unfold dot; simpl. lra.
  - simpl. lra.
  - rewrite example_ray_eq. apply vec3_eq; simpl; ring.
  - simpl. lra.
Defined.
